(** * Sim: query resolution pipeline and credential lifecycle

    A shallow embedding of [src/index.js]: the Express handlers [/apikey],
    [/api/keys], [/nash] and [/teach], the credential helpers
    ([loadApiKeys], [validateApiKey], [generateApiKey],
    [deleteExpiredApiKeys]), the temporal handler [generateTimeResponse],
    the start-up loader [loadResponses] and the background job
    [autoLearnFromResponses].

    Conventions of the embedding.
    - A JavaScript string is a Rocq [string]; each character stands for one
      UTF-16 code unit in the range 0..255.
    - A [Date] is its time value, an integer number of milliseconds since
      the epoch ([Z]).  The JSON round trip of the key file (ISO-8601 text,
      millisecond precision) is the identity on time values.
    - The libraries the program talks to (node-nlp, moment-timezone,
      fuse.js, crypto, the clock, sqlite faults) are not part of the
      repository: they are the fields of an environment record [Env].
    - Handlers run to completion one after another; the interleaving of
      [await] points of concurrent requests is not modelled. *)

From Stdlib Require Import String Ascii List ZArith NArith Bool Lia.
From Stdlib Require Import Strings.Byte.
From Stdlib Require Import Sorting.Permutation.
Import ListNotations.
Local Open Scope string_scope.
Local Open Scope Z_scope.

Set Implicit Arguments.

(* ================================================================== *)
(** ** JavaScript strings and the time-query pattern *)
(* ================================================================== *)

Module JsString.

Definition code (c : ascii) : N := N_of_ascii c.

Definition between (lo hi n : N) : bool := (N.leb lo n && N.leb n hi)%bool.

Definition is_digit (c : ascii) : bool := between 48 57 (code c).
Definition is_upper (c : ascii) : bool := between 65 90 (code c).
Definition is_lower (c : ascii) : bool := between 97 122 (code c).

(** [\w] : [A-Za-z0-9_]. *)
Definition is_word (c : ascii) : bool :=
  (is_digit c || is_upper c || is_lower c || N.eqb (code c) 95)%bool.

(** [\s] restricted to code units below 256: TAB, LF, VT, FF, CR, SPACE
    and NO-BREAK SPACE. *)
Definition is_space (c : ascii) : bool :=
  (between 9 13 (code c) || N.eqb (code c) 32 || N.eqb (code c) 160)%bool.

(** The character class [[\w\/\-\s]] of the time-query pattern. *)
Definition is_location_char (c : ascii) : bool :=
  (is_word c || N.eqb (code c) 47 || N.eqb (code c) 45 || is_space c)%bool.

(** Canonicalisation under the [i] flag (no [u] flag), as far as the
    comparison with the ASCII characters of a pattern needs it: ASCII
    letters are upper-cased, and a code unit of 128 or more never
    canonicalises to an ASCII one (it is left as it is here). *)
Definition canonicalize (c : ascii) : N :=
  if is_lower c then (code c - 32)%N else code c.

Definition ci_eqb (p c : ascii) : bool := N.eqb (canonicalize p) (canonicalize c).

(** [ci_prefix lit s]: when [s] starts with [lit] up to case, what
    follows it. *)
Fixpoint ci_prefix (lit s : string) : option string :=
  match lit with
  | EmptyString => Some s
  | String p lit' =>
      match s with
      | EmptyString => None
      | String c s' => if ci_eqb p c then ci_prefix lit' s' else None
      end
  end.

(** Greedy [[...]*]: the longest prefix made of class characters. *)
Fixpoint take_while (f : ascii -> bool) (s : string) : string :=
  match s with
  | EmptyString => EmptyString
  | String c s' => if f c then String c (take_while f s') else EmptyString
  end.

Fixpoint map_chars (f : ascii -> ascii) (s : string) : string :=
  match s with
  | EmptyString => EmptyString
  | String c s' => String (f c) (map_chars f s')
  end.

(** The pattern [/current time in ([\w\/\-\s]+)/i] tried at the start of
    [s]: the capture group is the longest run of class characters after
    the literal, and the run must not be empty. *)
Definition time_pattern_here (s : string) : option string :=
  match ci_prefix "current time in " s with
  | Some rest =>
      match take_while is_location_char rest with
      | EmptyString => None
      | capture => Some capture
      end
  | None => None
  end.

(** [prompt.match(/current time in ([\w\/\-\s]+)/i)]: the leftmost match;
    [Some capture] is group 1, [None] is JavaScript's [null]. *)
Fixpoint time_query_match (s : string) : option string :=
  match time_pattern_here s with
  | Some capture => Some capture
  | None =>
      match s with
      | EmptyString => None
      | String _ s' => time_query_match s'
      end
  end.

(** [.replace(/\s/g, '_')] *)
Definition spaces_to_underscores : string -> string :=
  map_chars (fun c => if is_space c then "_"%char else c).

(** [.replace(/_/g, ' ')] *)
Definition underscores_to_spaces : string -> string :=
  map_chars (fun c => if N.eqb (code c) 95 then " "%char else c).

(** Truthiness of a value that is [undefined] or a string: only a
    non-empty string is truthy. *)
Definition truthy (v : option string) : bool :=
  match v with
  | Some (String _ _) => true
  | _ => false
  end.

Definition hex_digit (n : N) : ascii :=
  match String.get (N.to_nat n) "0123456789abcdef" with
  | Some c => c
  | None => "0"%char
  end.

(** [Buffer.toString('hex')]: two lower-case digits per byte. *)
Fixpoint to_hex (bs : list byte) : string :=
  match bs with
  | [] => EmptyString
  | b :: bs' =>
      let n := Byte.to_N b in
      String (hex_digit (n / 16)) (String (hex_digit (n mod 16)) (to_hex bs'))
  end.

End JsString.

(* ================================================================== *)
(** ** Data model *)
(* ================================================================== *)

(** A row of the table [responses (question TEXT, answer TEXT)]. *)
Record QAPair := { question : string; answer : string }.

(** An element of the array kept in [apikeys.json]. *)
Record ApiKey := { api_key : string; expiration : Z }.

Definition QAPair_eqb (r s : QAPair) : bool :=
  (String.eqb (question r) (question s) && String.eqb (answer r) (answer s))%bool.

(** The calls the program makes on the [NlpManager].  The manager is a
    black box; what it has been told is the sequence of these calls. *)
Inductive Call :=
| AddDocument (lang utterance intent : string)
| AddAnswer (lang intent ans : string)
| Train
| Save.

(** The three [db.all] queries of the program. *)
Inductive Sql :=
| SelectAll                         (* SELECT question, answer FROM responses *)
| SelectQuestions                   (* SELECT question FROM responses *)
| SelectPair (q a : string).        (* ... WHERE question = ? AND answer = ? *)

(** External operations that may throw (or reject). *)
Inductive Op :=
| DbAll (q : Sql)
| Manager (c : Call).

(** Result of [await manager.process(language, prompt)]; only the [answer]
    field is read, and it is a string or [undefined]. *)
Record NlpResult := { nlp_answer : option string }.

Inductive Outcome (A : Type) :=
| Ok (a : A)
| Throw.
Arguments Ok {A} a.
Arguments Throw {A}.

(** What the program gets from outside at one run of a handler. *)
Record Env := {
  (** [new Date()] *)
  now : Z;
  (** offset of the host's time zone, ECMA-262 [LocalTZA(t, isUTC)] *)
  LocalTZA : Z -> bool -> Z;
  (** [crypto.randomBytes(n)] *)
  randomBytes : nat -> list byte;
  (** [manager.process(language, prompt)], given what the manager was told *)
  nlp_process : list Call -> string -> string -> Outcome NlpResult;
  (** [moment.tz.zone(name)] is not [null] *)
  tz_zone : string -> bool;
  (** [moment().tz(name).format('MMMM Do YYYY, h:mm:ss a')] *)
  tz_format : string -> string;
  (** [new Fuse(questions, { threshold: 0.3 }).search(prompt)], the [item]
      of each result, best first *)
  fuse_search : list string -> string -> list string;
  (** which external operations fail *)
  throws : Op -> bool
}.

(** The mutable state the handlers share. *)
Record World := {
  (** rows of [responses], in insertion order *)
  responses : list QAPair;
  (** calls the manager has accepted, oldest first *)
  manager : list Call;
  (** content of [apikeys.json]; [None] when the file does not exist *)
  apikeys_file : option (list ApiKey);
  (** [db.all] queries issued so far, oldest first *)
  db_log : list Sql
}.

Inductive Body :=
| JResponse (response : string)     (* { response } *)
| JMessage (message : string)       (* { message } *)
| JApiKey (apiKey : string)         (* { apiKey } *)
| JKeys (keys : list ApiKey)        (* the array of stored keys *)
| JErrors.                          (* { errors: [...] } *)

Record Response := { status : Z; body : Body }.

Definition json (st : Z) (b : Body) : Response := {| status := st; body := b |}.

(** Query parameters as Express gives them: absent or a string.  (Array
    and object valued parameters are rejected by [isString()] for [prompt],
    [apiKey], [question] and [answer]; for [language] they are outside the
    embedding.) *)
Record NashQuery := {
  q_prompt : option string;
  q_apiKey : option string;
  q_language : option string
}.

Record TeachQuery := {
  q_question : option string;
  q_answer : option string
}.

Definition PORT : Z := 3000.
Definition API_KEY_EXPIRY_DAYS : Z := 7.
Definition EXPIRY_CHECK_INTERVAL : Z := 24 * 60 * 60 * 1000.
Definition msPerDay : Z := 86400000.
Definition languages : list string := ["en"; "tl"; "es"; "fr"].

(* ================================================================== *)
(** ** A state monad with exceptions

    A computation may throw after it has changed the world; what it did
    before throwing stays done. *)
(* ================================================================== *)

Definition M (A : Type) : Type := World -> Outcome A * World.

Definition ret {A} (a : A) : M A := fun w => (Ok a, w).

Definition bind {A B} (m : M A) (k : A -> M B) : M B :=
  fun w =>
    match m w with
    | (Ok a, w') => k a w'
    | (Throw, w') => (Throw, w')
    end.

Definition throw {A} : M A := fun w => (Throw, w).

(** [try { m } catch (err) { h }] for a handler body that ends by sending
    a response. *)
Definition try_catch {A} (m : M A) (h : A) : World -> A * World :=
  fun w =>
    match m w with
    | (Ok a, w') => (a, w')
    | (Throw, w') => (h, w')
    end.

Declare Scope monad_scope.
Delimit Scope monad_scope with monad.
Notation "x <- m ;; k" := (bind m (fun x => k))
  (at level 61, m at next level, right associativity) : monad_scope.
Notation "m ;; k" := (bind m (fun _ => k))
  (at level 61, right associativity) : monad_scope.
Local Open Scope monad_scope.

(** [xs.forEach(f)] *)
Fixpoint forEach {A} (xs : list A) (f : A -> M unit) : M unit :=
  match xs with
  | [] => ret tt
  | x :: xs' => f x ;; forEach xs' f
  end.

Definition set_responses (rows : list QAPair) (w : World) : World :=
  {| responses := rows; manager := manager w;
     apikeys_file := apikeys_file w; db_log := db_log w |}.

Definition set_manager (calls : list Call) (w : World) : World :=
  {| responses := responses w; manager := calls;
     apikeys_file := apikeys_file w; db_log := db_log w |}.

Definition set_apikeys_file (f : option (list ApiKey)) (w : World) : World :=
  {| responses := responses w; manager := manager w;
     apikeys_file := f; db_log := db_log w |}.

Definition set_db_log (l : list Sql) (w : World) : World :=
  {| responses := responses w; manager := manager w;
     apikeys_file := apikeys_file w; db_log := l |}.

(* ================================================================== *)
(** ** Plain objects used as maps ([responsesMap]) *)
(* ================================================================== *)

Module JsObject.

(** Own properties in creation order; every value is an array of
    strings. *)
Definition t := list (string * list string).

(** Properties every plain object inherits from [Object.prototype].
    Reading one of them from an object that has no own property of that
    name gives a function (or, for [__proto__], the prototype object):
    a truthy value that is not iterable. *)
Definition prototype_keys : list string :=
  [ "constructor"; "__defineGetter__"; "__defineSetter__"; "hasOwnProperty";
    "__lookupGetter__"; "__lookupSetter__"; "isPrototypeOf";
    "propertyIsEnumerable"; "toString"; "valueOf"; "__proto__";
    "toLocaleString" ].

Definition inherited (k : string) : bool := existsb (String.eqb k) prototype_keys.

Fixpoint get_own (o : t) (k : string) : option (list string) :=
  match o with
  | [] => None
  | (k', v) :: o' => if String.eqb k' k then Some v else get_own o' k
  end.

(** [o[k] = v]: an existing own property keeps its place, a new one is
    created last. *)
Fixpoint set (o : t) (k : string) (v : list string) : t :=
  match o with
  | [] => [(k, v)]
  | (k', v') :: o' =>
      if String.eqb k' k then (k', v) :: o' else (k', v') :: set o' k v
  end.

Fixpoint digits_value (s : string) (acc : N) : option N :=
  match s with
  | EmptyString => Some acc
  | String c s' =>
      if JsString.is_digit c
      then digits_value s' (acc * 10 + (JsString.code c - 48))%N
      else None
  end.

(** An array index: the canonical decimal spelling of an integer between
    0 and 2^32 - 2. *)
Definition array_index (k : string) : option N :=
  match k with
  | EmptyString => None
  | String c rest =>
      if (N.eqb (JsString.code c) 48 && negb (String.eqb rest ""))%bool then None
      else match digits_value k 0 with
           | Some n => if (n <? 4294967295)%N then Some n else None
           | None => None
           end
  end.

Fixpoint insert_sorted (e : N * (string * list string))
         (l : list (N * (string * list string))) :=
  match l with
  | [] => [e]
  | e' :: l' =>
      if (fst e <=? fst e')%N then e :: e' :: l' else e' :: insert_sorted e l'
  end.

Fixpoint index_entries (o : t) : list (N * (string * list string)) :=
  match o with
  | [] => []
  | (k, v) :: o' =>
      match array_index k with
      | Some n => insert_sorted (n, (k, v)) (index_entries o')
      | None => index_entries o'
      end
  end.

Fixpoint named_entries (o : t) : list (string * list string) :=
  match o with
  | [] => []
  | (k, v) :: o' =>
      match array_index k with
      | Some _ => named_entries o'
      | None => (k, v) :: named_entries o'
      end
  end.

(** The order of [for (const k in o)]: array indices in ascending
    numeric order, then the other keys in creation order.  Each key
    comes with the value [o[k]]. *)
Definition for_in (o : t) : list (string * list string) :=
  map snd (index_entries o) ++ named_entries o.

(** [[...new Set(xs)]]: first occurrences, in order. *)
Fixpoint unique_from (seen xs : list string) : list string :=
  match xs with
  | [] => []
  | x :: xs' =>
      if existsb (String.eqb x) seen then unique_from seen xs'
      else x :: unique_from (x :: seen) xs'
  end.

Definition unique (xs : list string) : list string := unique_from [] xs.

End JsObject.

(* ================================================================== *)
(** ** The program *)
(* ================================================================== *)

Section Program.

Variable E : Env.

(** *** Collaborators *)

(** [await db.all(sql, params)]: the matching rows, or a rejection. *)
Definition db_all (q : Sql) : M (list QAPair) :=
  fun w =>
    let w' := set_db_log (db_log w ++ [q]) w in
    if throws E (DbAll q) then (Throw, w')
    else
      let rows :=
        match q with
        | SelectPair qu an =>
            filter (QAPair_eqb {| question := qu; answer := an |}) (responses w)
        | _ => responses w
        end in
      (Ok rows, w').

(** [db.prepare('INSERT ...'); stmt.run(question, answer); stmt.finalize()]:
    the row is appended; sqlite reports a failure of the statement to a
    callback the program does not pass, so nothing is thrown here. *)
Definition db_insert (qu an : string) : M unit :=
  fun w =>
    (Ok tt, set_responses (responses w ++ [{| question := qu; answer := an |}]) w).

(** [manager.addDocument], [manager.addAnswer], [await manager.train()],
    [manager.save()]. *)
Definition manager_call (c : Call) : M unit :=
  fun w =>
    if throws E (Manager c) then (Throw, w)
    else (Ok tt, set_manager (manager w ++ [c]) w).

(** [await manager.process(language, prompt)] *)
Definition manager_process (language prompt : string) : M NlpResult :=
  fun w => (nlp_process E (manager w) language prompt, w).

(** *** Credentials *)

Definition loadApiKeys (w : World) : list ApiKey :=
  match apikeys_file w with
  | Some keys => keys
  | None => []
  end.

Definition saveApiKeys (apiKeys : list ApiKey) (w : World) : World :=
  set_apikeys_file (Some apiKeys) w.

(** [keyData && new Date(keyData.expiration) > new Date()], as a
    truth value. *)
Definition validateApiKey (apiKey : string) (w : World) : bool :=
  let apiKeys := loadApiKeys w in
  match find (fun key => String.eqb (api_key key) apiKey) apiKeys with
  | Some keyData => now E <? expiration keyData
  | None => false
  end.

Definition LocalTime (t : Z) : Z := t + LocalTZA E t true.
Definition UTC (t : Z) : Z := t - LocalTZA E t false.

(** [d.setDate(d.getDate() + n)] on a date of time value [t]: with
    [l = LocalTime t], [MakeDay (YearFromTime l) (MonthFromTime l)
    (DateFromTime l + n)] is [Day l + n], so the new time value is
    [UTC (l + n * msPerDay)]. *)
Definition Date_addDays (t n : Z) : Z := UTC (LocalTime t + n * msPerDay).

Definition generateApiKey (w : World) : string * World :=
  let apiKey := "nsh-" ++ JsString.to_hex (randomBytes E 16) in
  let expiration := Date_addDays (now E) API_KEY_EXPIRY_DAYS in
  let apiKeys := loadApiKeys w in
  let apiKeys := (apiKeys ++ [{| api_key := apiKey; expiration := expiration |}])%list in
  (apiKey, saveApiKeys apiKeys w).

Definition deleteExpiredApiKeys (w : World) : World :=
  let apiKeys := loadApiKeys w in
  let updatedApiKeys := filter (fun key => now E <? expiration key) apiKeys in
  saveApiKeys updatedApiKeys w.

Definition checkExpiredApiKeys : World -> World := deleteExpiredApiKeys.

(** *** Temporal handler *)

Definition generateTimeResponse (timezone : string) : string :=
  if negb (tz_zone E timezone) then "Invalid timezone."
  else "The current time in " ++ JsString.underscores_to_spaces timezone
       ++ " is " ++ tz_format E timezone ++ ".".

(** *** [GET /apikey] and [GET /api/keys] *)

Definition get_apikey (w : World) : Response * World :=
  let (apiKey, w') := generateApiKey w in
  (json 200 (JApiKey apiKey), w').

Definition get_api_keys (w : World) : Response * World :=
  (json 200 (JKeys (loadApiKeys w)), w).

(** *** [GET /nash] *)

Definition did_you_mean (item : string) : string :=
  "Did you mean: " ++ String (ascii_of_nat 34) item
  ++ String (ascii_of_nat 34) "?".

Definition dont_know : string :=
  "I'm not sure how to respond to that. Ask something else.".

(** Lines 108-114: the fuzzy look-up and the default. *)
Definition fuzzy_or_default (prompt : string) : M Response :=
  rows <- db_all SelectQuestions ;;
  let questions := map question rows in
  let closestMatch := fuse_search E questions prompt in
  match closestMatch with
  | item :: _ => ret (json 200 (JResponse (did_you_mean item)))
  | [] => ret (json 200 (JResponse dont_know))
  end.

(** Lines 105-106 and what follows them. *)
Definition time_or_fuzzy (prompt : string) : M Response :=
  let timezoneMatch := JsString.time_query_match prompt in
  match timezoneMatch with
  | Some group1 =>
      ret (json 200 (JResponse
             (generateTimeResponse (JsString.spaces_to_underscores group1))))
  | None => fuzzy_or_default prompt
  end.

(** The body of the [try] block, lines 102-114. *)
Definition resolve (language prompt : string) : M Response :=
  response <- manager_process language prompt ;;
  match nlp_answer response with
  | Some a =>
      if JsString.truthy (Some a) then ret (json 200 (JResponse a))
      else time_or_fuzzy prompt
  | None => time_or_fuzzy prompt
  end.

Definition get_nash (req : NashQuery) (w : World) : Response * World :=
  match q_prompt req, q_apiKey req with
  | Some prompt, Some apiKey =>
      let language :=
        match q_language req with
        | Some l => l
        | None => "en"
        end in
      if negb (validateApiKey apiKey w)
      then (json 403 (JMessage "Invalid API key"), w)
      else try_catch (resolve language prompt)
                     (json 500 (JMessage "Error retrieving responses")) w
  | _, _ => (json 400 JErrors, w)
  end.

(** *** [GET /teach] *)

(** Lines 35-38 and 137-140: one pair, four languages. *)
Definition register_pair (qu an : string) : M unit :=
  forEach languages (fun lang =>
    manager_call (AddDocument lang qu qu) ;;
    manager_call (AddAnswer lang qu an)).

(** The body of the [try] block, lines 130-144. *)
Definition teach (qu an : string) : M Response :=
  exists_ <- db_all (SelectPair qu an) ;;
  if (0 <? Z.of_nat (length exists_))
  then ret (json 200 (JMessage "This answer already exists for the question"))
  else
    db_insert qu an ;;
    register_pair qu an ;;
    manager_call Train ;;
    manager_call Save ;;
    ret (json 200 (JMessage "Training successful")).

Definition get_teach (req : TeachQuery) (w : World) : Response * World :=
  match q_question req, q_answer req with
  | Some qu, Some an =>
      try_catch (teach qu an) (json 500 (JMessage "Error training the chatbot")) w
  | _, _ => (json 400 JErrors, w)
  end.

(** *** Start-up load *)

Definition loadResponses : World -> unit * World :=
  try_catch
    (rows <- db_all SelectAll ;;
     forEach rows (fun row => register_pair (question row) (answer row)) ;;
     manager_call Train ;;
     manager_call Save)
    tt.

(** *** Auto-learning *)

(** Line 156.  Reading [responsesMap[question]] finds an own array, or an
    inherited member of [Object.prototype] (whose spread throws a
    [TypeError]), or [undefined]. *)
Definition collect (responsesMap : JsObject.t) (row : QAPair)
  : Outcome JsObject.t :=
  match JsObject.get_own responsesMap (question row) with
  | Some answers =>
      Ok (JsObject.set responsesMap (question row) (answers ++ [answer row]))
  | None =>
      if JsObject.inherited (question row) then Throw
      else Ok (JsObject.set responsesMap (question row) [answer row])
  end.

Fixpoint collect_rows (responsesMap : JsObject.t) (rows : list QAPair)
  : Outcome JsObject.t :=
  match rows with
  | [] => Ok responsesMap
  | row :: rows' =>
      match collect responsesMap row with
      | Ok responsesMap' => collect_rows responsesMap' rows'
      | Throw => Throw
      end
  end.

Definition lift {A} (o : Outcome A) : M A := fun w => (o, w).

(** Lines 162-167. *)
Definition reregister (qu : string) (answers : list string) : M unit :=
  let uniqueAnswers := JsObject.unique answers in
  forEach uniqueAnswers (fun an =>
    manager_call (AddAnswer "en" qu an) ;;
    manager_call (AddAnswer "tl" qu an) ;;
    manager_call (AddAnswer "es" qu an) ;;
    manager_call (AddAnswer "fr" qu an)).

(** No [try] here: a rejection is the rejection of the job. *)
Definition autoLearnFromResponses : M unit :=
  rows <- db_all SelectAll ;;
  responsesMap <- lift (collect_rows [] rows) ;;
  forEach (JsObject.for_in responsesMap) (fun entry =>
    reregister (fst entry) (snd entry)) ;;
  manager_call Train ;;
  manager_call Save.

End Program.

(* ================================================================== *)
(** ** Vocabulary of the specification *)
(* ================================================================== *)

(** What one language of the matcher is told by a call. *)
Inductive Registration :=
| RegDocument (utterance intent : string)
| RegAnswer (intent ans : string).

(** The registrations a sequence of calls performs for [lang], in order. *)
Fixpoint registration_of (lang : string) (calls : list Call) : list Registration :=
  match calls with
  | [] => []
  | AddDocument l u i :: calls' =>
      if String.eqb l lang then RegDocument u i :: registration_of lang calls'
      else registration_of lang calls'
  | AddAnswer l i a :: calls' =>
      if String.eqb l lang then RegAnswer i a :: registration_of lang calls'
      else registration_of lang calls'
  | _ :: calls' => registration_of lang calls'
  end.

(** The calls the manager accepted between two states of the world. *)
Definition new_calls (w w' : World) : list Call :=
  skipn (length (manager w)) (manager w').

(** The calls a registration of one pair makes, in program order. *)
Definition pair_calls (qu an : string) : list Call :=
  flat_map (fun lang => [AddDocument lang qu qu; AddAnswer lang qu an]) languages.

Definition rows_calls (rows : list QAPair) : list Call :=
  flat_map (fun row => pair_calls (question row) (answer row)) rows.

Definition answer_calls (qu an : string) : list Call :=
  [AddAnswer "en" qu an; AddAnswer "tl" qu an;
   AddAnswer "es" qu an; AddAnswer "fr" qu an].

Definition entry_calls (entry : string * list string) : list Call :=
  flat_map (answer_calls (fst entry)) (JsObject.unique (snd entry)).

(** The steps of a teach request that come after the INSERT. *)
Definition later_steps (qu an : string) : list Call :=
  pair_calls qu an ++ [Train; Save].

(** The longest prefix of [calls] the manager accepts, and whether it is
    all of them. *)
Fixpoint accepted (E : Env) (calls : list Call) : list Call :=
  match calls with
  | [] => []
  | c :: calls' => if throws E (Manager c) then [] else c :: accepted E calls'
  end.

Definition all_accepted (E : Env) (calls : list Call) : bool :=
  forallb (fun c => negb (throws E (Manager c))) calls.

(** The calls that register training data. *)
Definition is_registration (c : Call) : bool :=
  match c with
  | AddDocument _ _ _ | AddAnswer _ _ _ => true
  | Train | Save => false
  end.


Definition ApiKey_eq_dec (r s : ApiKey) : {r = s} + {r <> s}.
Proof. decide equality; [apply Z.eq_dec | apply string_dec]. Defined.

(** A stored key is expired once its expiration is not after [now E]. *)
Definition expired (E : Env) (key : ApiKey) : Prop := expiration key <= now E.

(** [E] with another matcher. *)
Definition with_process
           (f : list Call -> string -> string -> Outcome NlpResult) (E : Env) : Env :=
  {| now := now E;
     LocalTZA := LocalTZA E;
     randomBytes := randomBytes E;
     nlp_process := f;
     tz_zone := tz_zone E;
     tz_format := tz_format E;
     fuse_search := fuse_search E;
     throws := throws E |}.

(** Pointwise equality of computations. *)
Definition same {A} (m m' : M A) : Prop := forall w, m w = m' w.

(* ================================================================== *)
(** ** Stand-ins for the collaborators, used in the examples *)
(* ================================================================== *)

Module Sample.

(** A matcher that knows exactly what it was told: a prompt is answered,
    in a language, by the first answer registered in that language for
    the intent of a document equal to the prompt. *)
Fixpoint intent_of (calls : list Call) (lang prompt : string) : option string :=
  match calls with
  | [] => None
  | AddDocument l u i :: calls' =>
      if (String.eqb l lang && String.eqb u prompt)%bool then Some i
      else intent_of calls' lang prompt
  | _ :: calls' => intent_of calls' lang prompt
  end.

Fixpoint answer_of (calls : list Call) (lang intent : string) : option string :=
  match calls with
  | [] => None
  | AddAnswer l i a :: calls' =>
      if (String.eqb l lang && String.eqb i intent)%bool then Some a
      else answer_of calls' lang intent
  | _ :: calls' => answer_of calls' lang intent
  end.

Definition exact_process (calls : list Call) (lang prompt : string)
  : Outcome NlpResult :=
  match intent_of calls lang prompt with
  | Some i => Ok {| nlp_answer := answer_of calls lang i |}
  | None => Ok {| nlp_answer := None |}
  end.

(** A fuzzy index that only finds a question of which the prompt is a
    prefix. *)
Definition prefix_search (questions : list string) (prompt : string) : list string :=
  filter (String.prefix prompt) questions.

(** A host on UTC at instant [t], sixteen zero bytes of entropy, one
    known zone, no faults. *)
Definition env (t : Z) : Env :=
  {| now := t;
     LocalTZA := fun _ _ => 0;
     randomBytes := fun n => repeat x00 n;
     nlp_process := exact_process;
     tz_zone := String.eqb "America/New_York";
     tz_format := fun _ => "January 1st 2026, 12:00:00 am";
     fuse_search := prefix_search;
     throws := fun _ => false |}.

(** The same host when the model cannot be saved. *)
Definition env_save_fails (t : Z) : Env :=
  {| now := t;
     LocalTZA := fun _ _ => 0;
     randomBytes := fun n => repeat x00 n;
     nlp_process := exact_process;
     tz_zone := String.eqb "America/New_York";
     tz_format := fun _ => "January 1st 2026, 12:00:00 am";
     fuse_search := prefix_search;
     throws := fun op => match op with Manager Save => true | _ => false end |}.

(** A host whose clocks go forward one hour at instant [3 * msPerDay]. *)
Definition env_dst (t : Z) : Env :=
  {| now := t;
     LocalTZA := fun t' _ => if t' <? 3 * msPerDay then 0 else 3600000;
     randomBytes := fun n => repeat x00 n;
     nlp_process := exact_process;
     tz_zone := String.eqb "America/New_York";
     tz_format := fun _ => "January 1st 2026, 12:00:00 am";
     fuse_search := prefix_search;
     throws := fun _ => false |}.

Definition key (token : string) (expires : Z) : ApiKey :=
  {| api_key := token; expiration := expires |}.

Definition pair (qu an : string) : QAPair := {| question := qu; answer := an |}.

(** An empty table, an untrained manager, one key valid until 1000. *)
Definition world0 : World :=
  {| responses := [];
     manager := [];
     apikeys_file := Some [key "nsh-demo" 1000];
     db_log := [] |}.

(** The same with no key file at all. *)
Definition world_no_file : World :=
  {| responses := []; manager := []; apikeys_file := None; db_log := [] |}.

Definition ask (prompt : string) (lang : option string) : NashQuery :=
  {| q_prompt := Some prompt; q_apiKey := Some "nsh-demo"; q_language := lang |}.

Definition tell (qu an : string) : TeachQuery :=
  {| q_question := Some qu; q_answer := Some an |}.

Definition zero_token : string := "nsh-00000000000000000000000000000000".

Definition london : string := "current time in London please".

(** [world0] after [/teach?question=current time in London please&answer=A]. *)
Definition world_taught : World :=
  snd (get_teach (env 0) (tell london "A") world0).

(** [world0] after the same question was taught with an empty answer. *)
Definition world_taught_empty : World :=
  snd (get_teach (env 0) (tell london "") world0).


Definition with_keys (keys : list ApiKey) : World :=
  {| responses := []; manager := []; apikeys_file := Some keys; db_log := [] |}.

(** Two records with one token, the first of them expired at 50. *)
Definition world_two_records : World := with_keys [key "k" 0; key "k" 100].

(** A store that already holds the token the zero entropy produces,
    expired at 2000. *)
Definition world_collision : World := with_keys [key zero_token 1000].

(** One expired and two live records at instant 50. *)
Definition world_mixed : World :=
  with_keys [key "a" 100; key "b" 50; key "c" 51].

End Sample.

(* ================================================================== *)
(** ** The server as a sequence of events *)
(* ================================================================== *)

(** [db.run('CREATE TABLE IF NOT EXISTS responses ...')]: the rows of an
    existing table are kept; a table that was missing is the empty one. *)
Definition initializeDatabase (w : World) : World := w.

(** What the process does, one thing at a time: the two calls at the end
    of the file, the four routes, and the two timers of [setInterval]. *)
Inductive Event :=
| Startup                         (* initializeDatabase(); loadResponses(); *)
| ApikeyRequest                   (* GET /apikey *)
| KeysRequest                     (* GET /api/keys *)
| NashRequest (q : NashQuery)     (* GET /nash *)
| TeachRequest (q : TeachQuery)   (* GET /teach *)
| AutoLearnTick                   (* setInterval(autoLearnFromResponses, ...) *)
| SweepTick.                      (* setInterval(checkExpiredApiKeys, ...) *)

Definition handle (E : Env) (ev : Event) (w : World) : World :=
  match ev with
  | Startup => snd (loadResponses E (initializeDatabase w))
  | ApikeyRequest => snd (get_apikey E w)
  | KeysRequest => snd (get_api_keys w)
  | NashRequest q => snd (get_nash E q w)
  | TeachRequest q => snd (get_teach E q w)
  | AutoLearnTick => snd (autoLearnFromResponses E w)
  | SweepTick => checkExpiredApiKeys E w
  end.

(** A run of the server: each event meets its own environment (clock,
    entropy, faults). *)
Fixpoint run (trace : list (Env * Event)) (w : World) : World :=
  match trace with
  | [] => w
  | (E, ev) :: rest => run rest (handle E ev w)
  end.




(** The value of a lower-case hexadecimal digit. *)
Definition hex_value (c : ascii) : option N :=
  if JsString.is_digit c then Some (JsString.code c - 48)%N
  else if JsString.between 97 102 (JsString.code c)
       then Some (JsString.code c - 87)%N
       else None.

(** [Buffer.from(s, 'hex')] on well-formed input: the inverse of
    [JsString.to_hex]. *)
Fixpoint from_hex (s : string) : option (list byte) :=
  match s with
  | EmptyString => Some []
  | String hi (String lo s') =>
      match hex_value hi, hex_value lo, from_hex s' with
      | Some h, Some l, Some bs =>
          match Byte.of_N (h * 16 + l) with
          | Some b => Some (b :: bs)
          | None => None
          end
      | _, _, _ => None
      end
  | String _ EmptyString => None
  end.

Definition is_hex_digit (c : ascii) : bool :=
  match hex_value c with
  | Some _ => true
  | None => false
  end.

(** ASCII upper-casing of a prompt. *)
Definition to_upper (c : ascii) : ascii :=
  if JsString.is_lower c then ascii_of_N (JsString.code c - 32) else c.

(** The characters a zone name handed to moment-timezone can be made of. *)
Definition is_zone_char (c : ascii) : bool :=
  (JsString.is_word c || N.eqb (JsString.code c) 47
   || N.eqb (JsString.code c) 45)%bool.

(** [o] holds answer [an] for question [qu]. *)
Definition holds (o : JsObject.t) (qu an : string) : Prop :=
  exists answers, JsObject.get_own o qu = Some answers /\ In an answers.

(** The intent a registration is about. *)
Definition registration_intent (r : Registration) : string :=
  match r with
  | RegDocument _ i => i
  | RegAnswer i _ => i
  end.

(** What [collect_rows] keeps true of [responsesMap]: its own keys are
    pairwise distinct and none of them is a name inherited from
    [Object.prototype]. *)
Definition plain_keys (o : JsObject.t) : Prop :=
  NoDup (map fst o) /\ forall k, In k (map fst o) -> JsObject.inherited k = false.

(** More sample data. *)
Module Scenario.

(** A table in which one question has two answers, one of them stored
    twice, and another question is an array index. *)
Definition rows : list QAPair :=
  [ Sample.pair "hi" "hello"; Sample.pair "7" "seven";
    Sample.pair "hi" "hey"; Sample.pair "hi" "hello" ].

Definition world_rows : World :=
  {| responses := rows; manager := [];
     apikeys_file := Some [Sample.key "nsh-demo" 1000]; db_log := [] |}.

(** A table with a question named like a member of [Object.prototype]. *)
Definition world_constructor : World :=
  {| responses := [Sample.pair "hi" "hello"; Sample.pair "constructor" "x"];
     manager := []; apikeys_file := None; db_log := [] |}.

(** A host on UTC where the look-ups of the store fail. *)
Definition env_db_down (t : Z) : Env :=
  {| now := t;
     LocalTZA := fun _ _ => 0;
     randomBytes := fun n => repeat x00 n;
     nlp_process := Sample.exact_process;
     tz_zone := String.eqb "America/New_York";
     tz_format := fun _ => "January 1st 2026, 12:00:00 am";
     fuse_search := Sample.prefix_search;
     throws := fun op => match op with DbAll _ => true | _ => false end |}.

(** A host on UTC with other entropy. *)
Definition env_ff (t : Z) : Env :=
  {| now := t;
     LocalTZA := fun _ _ => 0;
     randomBytes := fun n => repeat xff n;
     nlp_process := Sample.exact_process;
     tz_zone := String.eqb "America/New_York";
     tz_format := fun _ => "January 1st 2026, 12:00:00 am";
     fuse_search := Sample.prefix_search;
     throws := fun _ => false |}.

(** A day in the life of the server. *)
Definition day : list (Env * Event) :=
  [ (Sample.env 0, Startup);
    (Sample.env 10, ApikeyRequest);
    (Sample.env 20, TeachRequest (Sample.tell "hi" "hello"));
    (Sample.env_save_fails 30, TeachRequest (Sample.tell "bye" "see you"));
    (Sample.env 40, TeachRequest (Sample.tell "hi" "hello"));
    (Sample.env 50, NashRequest (Sample.ask "hi" None));
    (Sample.env 60, AutoLearnTick);
    (env_ff 70, ApikeyRequest);
    (Sample.env 2000, SweepTick);
    (Sample.env 2010, KeysRequest) ].

End Scenario.

(* ================================================================== *)
(** ** Laws of the monad *)
(* ================================================================== *)

Local Open Scope list_scope.
Unset Implicit Arguments.

Lemma same_refl {A} (m : M A) : same m m.
Proof. intro w; reflexivity. Qed.

Lemma same_trans {A} (m1 m2 m3 : M A) : same m1 m2 -> same m2 m3 -> same m1 m3.
Proof. intros H12 H23 w. now rewrite H12. Qed.

Lemma same_sym {A} (m1 m2 : M A) : same m1 m2 -> same m2 m1.
Proof. intros H w. now rewrite H. Qed.

Lemma bind_same {A B} (m m' : M A) (k k' : A -> M B) :
  same m m' -> (forall a, same (k a) (k' a)) -> same (bind m k) (bind m' k').
Proof.
  intros Hm Hk w. unfold bind. rewrite Hm.
  destruct (m' w) as [[a|] w']; [apply Hk | reflexivity].
Qed.

Lemma bind_assoc {A B C} (m : M A) (k : A -> M B) (h : B -> M C) :
  same (bind (bind m k) h) (bind m (fun a => bind (k a) h)).
Proof.
  intro w. unfold bind. destruct (m w) as [[a|] w']; reflexivity.
Qed.

Lemma bind_ret_l {A B} (a : A) (k : A -> M B) : same (bind (ret a) k) (k a).
Proof. intro w; reflexivity. Qed.

Lemma bind_ret_unit (m : M unit) : same (m ;; ret tt) m.
Proof.
  intro w. unfold bind, ret. destruct (m w) as [[[]|] w']; reflexivity.
Qed.

Lemma forEach_app {A} (xs ys : list A) (f : A -> M unit) :
  same (forEach (xs ++ ys) f) (forEach xs f ;; forEach ys f).
Proof.
  induction xs as [|x xs IH]; simpl.
  - intro w; reflexivity.
  - eapply same_trans; [|apply same_sym, bind_assoc].
    apply bind_same; [apply same_refl | intros _; exact IH].
Qed.

Lemma forEach_same {A} (xs : list A) (f g : A -> M unit) :
  (forall x, same (f x) (g x)) -> same (forEach xs f) (forEach xs g).
Proof.
  intro H. induction xs as [|x xs IH]; simpl.
  - apply same_refl.
  - apply bind_same; [apply H | intros _; exact IH].
Qed.

(** A loop whose body is itself a loop of calls is one loop over the
    concatenated calls. *)
Lemma forEach_flat_map {A B} (xs : list A) (f : A -> M unit)
      (g : A -> list B) (call : B -> M unit) :
  (forall x, same (f x) (forEach (g x) call)) ->
  same (forEach xs f) (forEach (flat_map g xs) call).
Proof.
  intro H. induction xs as [|x xs IH]; simpl.
  - apply same_refl.
  - eapply same_trans; [|apply same_sym, forEach_app].
    apply bind_same; [apply H | intros _; exact IH].
Qed.

(* ================================================================== *)
(** ** Calls on the manager *)
(* ================================================================== *)

Lemma set_manager_same (w : World) : set_manager (manager w) w = w.
Proof. destruct w; reflexivity. Qed.

(** Running a sequence of calls: the manager takes them up to the first
    one that throws. *)
Lemma forEach_calls_run (E : Env) (calls : list Call) (w : World) :
  forEach calls (manager_call E) w
  = (if all_accepted E calls then Ok tt else Throw,
     set_manager (manager w ++ accepted E calls) w).
Proof.
  revert w. induction calls as [|c calls IH]; intro w; simpl.
  - unfold ret. now rewrite app_nil_r, set_manager_same.
  - unfold bind, manager_call at 1.
    destruct (throws E (Manager c)); simpl.
    + now rewrite app_nil_r, set_manager_same.
    + rewrite IH. destruct w; simpl. now rewrite <- app_assoc.
Qed.

(** When some call of the sequence throws, the sequence does not
    complete. *)
Lemma all_accepted_false (E : Env) (calls : list Call) :
  existsb (fun c => throws E (Manager c)) calls = true ->
  all_accepted E calls = false.
Proof.
  unfold all_accepted. induction calls as [|c calls IH]; simpl; [discriminate|].
  destruct (throws E (Manager c)); simpl; [reflexivity | exact IH].
Qed.

Lemma register_pair_calls (E : Env) (qu an : string) :
  same (register_pair E qu an) (forEach (pair_calls qu an) (manager_call E)).
Proof.
  unfold register_pair, pair_calls. apply forEach_flat_map.
  intro lang. simpl. apply bind_same; [apply same_refl | intros _].
  apply same_sym, bind_ret_unit.
Qed.

Lemma reregister_calls (E : Env) (entry : string * list string) :
  same (reregister E (fst entry) (snd entry))
       (forEach (entry_calls entry) (manager_call E)).
Proof.
  unfold reregister, entry_calls. apply forEach_flat_map.
  intro an. simpl.
  repeat (apply bind_same; [apply same_refl | intros _]).
  apply same_sym, bind_ret_unit.
Qed.

(** What follows the INSERT in a teach request is one run of
    [later_steps]. *)
Lemma teach_later_steps (E : Env) (qu an : string) (r : Response) :
  same (register_pair E qu an ;; manager_call E Train ;; manager_call E Save ;; ret r)
       (forEach (later_steps qu an) (manager_call E) ;; ret r).
Proof.
  unfold later_steps.
  eapply same_trans;
    [| apply bind_same; [apply same_sym, forEach_app | intro; apply same_refl]].
  eapply same_trans; [| apply same_sym, bind_assoc].
  apply bind_same; [apply register_pair_calls | intros _].
  simpl. eapply same_trans; [| apply same_sym, bind_assoc].
  apply bind_same; [apply same_refl | intros _].
  eapply same_trans; [| apply same_sym, bind_assoc].
  apply bind_same; [apply same_refl | intros _].
  intro w; reflexivity.
Qed.

(* ================================================================== *)
(** ** The knowledge store and [GET /teach] *)
(* ================================================================== *)

Lemma QAPair_eqb_eq (r s : QAPair) : QAPair_eqb r s = true <-> r = s.
Proof.
  destruct r as [q1 a1], s as [q2 a2]. unfold QAPair_eqb; simpl.
  rewrite andb_true_iff, !String.eqb_eq. split.
  - now intros [-> ->].
  - intro H; now inversion H.
Qed.

Lemma filter_nonempty {A} (f : A -> bool) (l : list A) :
  (0 <? Z.of_nat (length (filter f l))) = existsb f l.
Proof.
  induction l as [|x l IH]; simpl; [reflexivity|].
  destruct (f x); simpl; [|exact IH].
  apply Z.ltb_lt. lia.
Qed.

Lemma stored_pair_found (p : QAPair) (rows : list QAPair) :
  existsb (QAPair_eqb p) rows = true <-> In p rows.
Proof.
  rewrite existsb_exists. split.
  - intros [r [Hin Heq]]. apply QAPair_eqb_eq in Heq. now subst.
  - intro Hin. exists p. split; [exact Hin | now apply QAPair_eqb_eq].
Qed.

(** One run of the [try] block of [/teach], whatever fails. *)
Lemma teach_run (E : Env) (qu an : string) (w : World) :
  teach E qu an w
  = let w1 := set_db_log (db_log w ++ [SelectPair qu an]) w in
    if throws E (DbAll (SelectPair qu an)) then (Throw, w1)
    else if existsb (QAPair_eqb {| question := qu; answer := an |}) (responses w)
    then (Ok (json 200 (JMessage "This answer already exists for the question")), w1)
    else (if all_accepted E (later_steps qu an)
          then Ok (json 200 (JMessage "Training successful")) else Throw,
          set_manager (manager w ++ accepted E (later_steps qu an))
            (set_responses (responses w ++ [{| question := qu; answer := an |}]) w1)).
Proof.
  unfold teach. unfold bind at 1. unfold db_all.
  destruct (throws E (DbAll (SelectPair qu an))); [reflexivity|].
  rewrite filter_nonempty.
  destruct (existsb _ (responses w)); [reflexivity|].
  unfold bind at 1. unfold db_insert.
  rewrite (teach_later_steps E qu an _ _).
  unfold bind. rewrite forEach_calls_run.
  destruct (all_accepted E (later_steps qu an)); reflexivity.
Qed.

(** The rows after a teach request: unchanged, or the new pair appended
    to a table that did not hold it. *)
Lemma get_teach_responses (E : Env) (req : TeachQuery) (w : World) :
  responses (snd (get_teach E req w)) = responses w
  \/ exists qu an,
       req = {| q_question := Some qu; q_answer := Some an |}
       /\ throws E (DbAll (SelectPair qu an)) = false
       /\ ~ In {| question := qu; answer := an |} (responses w)
       /\ responses (snd (get_teach E req w))
          = responses w ++ [{| question := qu; answer := an |}].
Proof.
  destruct req as [[qu|] [an|]]; unfold get_teach; simpl; try (now left).
  unfold try_catch. rewrite teach_run. cbv zeta.
  destruct (throws E (DbAll (SelectPair qu an))) eqn:Hdb; [now left|].
  destruct (existsb _ (responses w)) eqn:Hex; [now left|].
  right. exists qu, an.
  split; [reflexivity | split; [exact Hdb | split]].
  - intro Hin. apply stored_pair_found in Hin. congruence.
  - destruct (all_accepted E (later_steps qu an)); reflexivity.
Qed.




(** C9.  A teach request is not undone when a later step fails: if the
    look-up works, the pair is new, and one of the steps after the INSERT
    (a registration, the training or the save) throws, the request answers
    500 "Error training the chatbot" and the new pair is in the table. *)
Theorem teach_not_atomic (E : Env) (w : World) (qu an : string) :
  let p := {| question := qu; answer := an |} in
  let req := {| q_question := Some qu; q_answer := Some an |} in
  throws E (DbAll (SelectPair qu an)) = false ->
  ~ In p (responses w) ->
  existsb (fun c => throws E (Manager c)) (later_steps qu an) = true ->
  fst (get_teach E req w) = json 500 (JMessage "Error training the chatbot")
  /\ responses (snd (get_teach E req w)) = responses w ++ [p]
  /\ In p (responses (snd (get_teach E req w))).
Proof.
  intros p req Hdb Hnew Hfail.
  unfold get_teach, req; simpl. unfold try_catch. rewrite teach_run. cbv zeta.
  rewrite Hdb.
  destruct (existsb (QAPair_eqb {| question := qu; answer := an |}) (responses w)) eqn:Hex.
  - exfalso. apply Hnew. now apply stored_pair_found.
  - rewrite (all_accepted_false _ _ Hfail). simpl.
    repeat split. apply in_or_app. right. now left.
Qed.

Lemma teach_not_atomic_witness :
  fst (get_teach (Sample.env_save_fails 0) (Sample.tell "q" "a") Sample.world0)
  = json 500 (JMessage "Error training the chatbot")
  /\ responses (snd (get_teach (Sample.env_save_fails 0) (Sample.tell "q" "a")
                               Sample.world0))
     = [Sample.pair "q" "a"].
Proof.
  destruct (teach_not_atomic (Sample.env_save_fails 0) Sample.world0 "q" "a")
    as (H1 & H2 & _).
  - reflexivity.
  - simpl. tauto.
  - reflexivity.
  - split; [exact H1 | exact H2].
Defined.


(* ================================================================== *)
(** ** Credentials *)
(* ================================================================== *)

Lemma find_first {A} (f : A -> bool) (l : list A) (x : A) :
  find f l = Some x <->
  exists before after,
    l = before ++ x :: after
    /\ (forall y, In y before -> f y = false)
    /\ f x = true.
Proof.
  induction l as [|y l IH]; simpl.
  - split; [discriminate|]. intros (b & a & H & _). now destruct b.
  - destruct (f y) eqn:Hy.
    + split.
      * intro H. inversion H; subst. exists [], l. simpl.
        split; [reflexivity | split; [intros z [] | exact Hy]].
      * intros (b & a & Hl & Hb & Hx). destruct b as [|z b]; simpl in Hl.
        -- now inversion Hl.
        -- inversion Hl; subst. rewrite (Hb z) in Hy; [discriminate | now left].
    + rewrite IH. split.
      * intros (b & a & -> & Hb & Hx). exists (y :: b), a. simpl.
        repeat split; [|exact Hx]. intros z [<-|Hz]; auto.
      * intros (b & a & Hl & Hb & Hx). destruct b as [|z b]; simpl in Hl.
        -- inversion Hl; subst. congruence.
        -- inversion Hl; subst. exists b, a. repeat split; [|exact Hx].
           intros z' Hz'. apply Hb. now right.
Qed.

Lemma find_none_iff {A} (f : A -> bool) (l : list A) :
  find f l = None <-> forall y, In y l -> f y = false.
Proof.
  induction l as [|y l IH]; simpl.
  - split; [intros _ z [] | reflexivity].
  - destruct (f y) eqn:Hy.
    + split; [discriminate|]. intro H. rewrite (H y) in Hy; [discriminate | now left].
    + rewrite IH. split.
      * intros H z [<-|Hz]; auto.
      * intros H z Hz. apply H. now right.
Qed.

(** With pairwise distinct tokens, the record [find] returns for a token is
    the only one that carries it. *)
Lemma find_unique_token (token : string) (keys : list ApiKey) (key : ApiKey) :
  NoDup (map api_key keys) -> In key keys -> api_key key = token ->
  find (fun k => String.eqb (api_key k) token) keys = Some key.
Proof.
  intros Hnd Hin Htok. induction keys as [|k keys IH]; simpl in *; [easy|].
  inversion Hnd as [|? ? Hk Hnd']; subst.
  destruct Hin as [->|Hin].
  - now rewrite String.eqb_refl.
  - destruct (String.eqb (api_key k) (api_key key)) eqn:Heq.
    + apply String.eqb_eq in Heq. exfalso. apply Hk. rewrite Heq.
      now apply in_map.
    + now apply IH.
Qed.

(** C5, as amended.  [validateApiKey] looks at the first stored record that
    carries the token: the token is valid exactly when that record exists
    and expires strictly after now.  When the stored tokens are pairwise
    distinct this is the same as: some stored record carries the token and
    expires strictly after now; and then a token stored with an expiration
    equal to or before now is invalid. *)
Theorem validateApiKey_first_match (E : Env) (token : string) (w : World) :
  (validateApiKey E token w = true <->
   exists before key after,
     loadApiKeys w = before ++ key :: after
     /\ (forall k, In k before -> api_key k <> token)
     /\ api_key key = token
     /\ now E < expiration key)
  /\ (NoDup (map api_key (loadApiKeys w)) ->
      (validateApiKey E token w = true <->
       exists key, In key (loadApiKeys w) /\ api_key key = token
                   /\ now E < expiration key)
      /\ (forall key, In key (loadApiKeys w) -> api_key key = token ->
                      expiration key <= now E -> validateApiKey E token w = false)).
Proof.
  unfold validateApiKey. split; [|intro Hnd; split].
  - destruct (find _ (loadApiKeys w)) as [keyData|] eqn:Hf.
    + apply find_first in Hf. destruct Hf as (b & a & Hl & Hb & Hx).
      apply String.eqb_eq in Hx. split.
      * intro Hlt. apply Z.ltb_lt in Hlt. exists b, keyData, a.
        repeat split; auto. intros k Hk Heq. apply Hb in Hk.
        apply String.eqb_neq in Hk. contradiction.
      * intros (b' & key & a' & Hl' & Hb' & Hkey & Hlt).
        assert (Hf' : find (fun k => String.eqb (api_key k) token) (loadApiKeys w)
                      = Some key).
        { apply find_first. exists b', a'. repeat split; [exact Hl' | |].
          - intros y Hy. apply String.eqb_neq. now apply Hb'.
          - now apply String.eqb_eq. }
        assert (Hf'' : find (fun k => String.eqb (api_key k) token) (loadApiKeys w)
                       = Some keyData).
        { apply find_first. exists b, a. repeat split; [exact Hl | exact Hb |].
          now apply String.eqb_eq. }
        rewrite Hf' in Hf''. inversion Hf''; subst. now apply Z.ltb_lt.
    + split; [discriminate|].
      intros (b & key & a & Hl & _ & Hkey & _). exfalso.
      rewrite find_none_iff in Hf. specialize (Hf key).
      rewrite Hl in Hf. rewrite in_app_iff in Hf. simpl in Hf.
      rewrite (proj2 (String.eqb_eq _ _) Hkey) in Hf.
      assert (true = false) by (apply Hf; auto). discriminate.
  - split.
    + destruct (find _ (loadApiKeys w)) as [keyData|] eqn:Hf; [|discriminate].
      intro Hlt. apply Z.ltb_lt in Hlt.
      destruct (find_some _ _ Hf) as [Hin Heq]. apply String.eqb_eq in Heq.
      now exists keyData.
    + intros (key & Hin & Hkey & Hlt).
      rewrite (find_unique_token token (loadApiKeys w) key Hnd Hin Hkey). now apply Z.ltb_lt.
  - intros key Hin Hkey Hle.
    rewrite (find_unique_token token (loadApiKeys w) key Hnd Hin Hkey). apply Z.ltb_ge. exact Hle.
Qed.

Lemma validateApiKey_first_match_witness :
  NoDup (map api_key (loadApiKeys Sample.world0))
  /\ (validateApiKey (Sample.env 0) "nsh-demo" Sample.world0 = true <->
      exists key, In key (loadApiKeys Sample.world0)
                  /\ api_key key = "nsh-demo"
                  /\ now (Sample.env 0) < expiration key)
  /\ validateApiKey (Sample.env 1000) "nsh-demo" Sample.world0 = false.
Proof.
  assert (Hnd : NoDup (map api_key (loadApiKeys Sample.world0))).
  { simpl. constructor; [simpl; tauto | constructor]. }
  split; [exact Hnd | split].
  - exact (proj1 (proj2 (validateApiKey_first_match (Sample.env 0) "nsh-demo"
                           Sample.world0) Hnd)).
  - apply (proj2 (proj2 (validateApiKey_first_match (Sample.env 1000) "nsh-demo"
                           Sample.world0) Hnd) (Sample.key "nsh-demo" 1000)).
    + simpl; now left.
    + reflexivity.
    + simpl. lia.
Defined.

(** C5 fails as stated: with the records [("k", 0); ("k", 100)] at instant
    50 a stored record carries the token and is not expired, yet the token
    is rejected, because the first record that carries it is expired. *)
Lemma validateApiKey_some_record_counterexample :
  ~ (validateApiKey (Sample.env 50) "k" Sample.world_two_records = true <->
     exists key, In key (loadApiKeys Sample.world_two_records)
                 /\ api_key key = "k"
                 /\ now (Sample.env 50) < expiration key).
Proof.
  intros [_ H].
  assert (Hv : validateApiKey (Sample.env 50) "k" Sample.world_two_records = true).
  { apply H. exists (Sample.key "k" 100).
    split; [simpl; tauto | split; [reflexivity | simpl; lia]]. }
  vm_compute in Hv. discriminate.
Qed.

Lemma find_append {A} (f : A -> bool) (l1 l2 : list A) :
  find f (l1 ++ l2)
  = match find f l1 with
    | Some x => Some x
    | None => find f l2
    end.
Proof.
  induction l1 as [|x l1 IH]; simpl; [reflexivity|].
  destruct (f x); [reflexivity | exact IH].
Qed.

Lemma String_prefix_append (s t : string) : String.prefix s (s ++ t)%string = true.
Proof.
  induction s as [|c s IH]; simpl.
  - now destruct t.
  - destruct (ascii_dec c c); [exact IH | congruence].
Qed.

(** C6, as amended.  [generateApiKey] returns a token that starts with
    "nsh-"; it appends exactly one record, carrying that token, to the
    stored records and touches nothing else; the record expires 7 days
    after now on the host's calendar ([setDate(getDate() + 7)]), which is
    now + 7 * 86 400 000 ms when the host's UTC offset is the same at both
    ends; [GET /apikey] answers 200 with the token.  On a host whose UTC
    offset stays within a day, the new token is valid at once provided no
    record stored before carries the same token. *)
Theorem generateApiKey_spec (E : Env) (w : World) :
  let token := fst (generateApiKey E w) in
  let w' := snd (generateApiKey E w) in
  let expires := UTC E (LocalTime E (now E) + API_KEY_EXPIRY_DAYS * msPerDay) in
  String.prefix "nsh-" token = true
  /\ loadApiKeys w' = loadApiKeys w ++ [{| api_key := token; expiration := expires |}]
  /\ (responses w' = responses w /\ manager w' = manager w /\ db_log w' = db_log w)
  /\ LocalTime E (now E) + 7 * msPerDay
     = expires + LocalTZA E (LocalTime E (now E) + 7 * msPerDay) false
  /\ (LocalTZA E (LocalTime E (now E) + 7 * msPerDay) false = LocalTZA E (now E) true ->
      expires = now E + 7 * msPerDay)
  /\ get_apikey E w = (json 200 (JApiKey token), w')
  /\ ((forall t b, - msPerDay <= LocalTZA E t b <= msPerDay) ->
      (forall k, In k (loadApiKeys w) -> api_key k <> token) ->
      validateApiKey E token w' = true).
Proof.
  intros token w' expires.
  assert (Htok : token = ("nsh-" ++ JsString.to_hex (randomBytes E 16))%string)
    by reflexivity.
  assert (Hload : loadApiKeys w'
                  = loadApiKeys w ++ [{| api_key := token; expiration := expires |}])
    by reflexivity.
  assert (Hget : get_apikey E w = (json 200 (JApiKey token), w')) by reflexivity.
  assert (Hrest : responses w' = responses w /\ manager w' = manager w
                  /\ db_log w' = db_log w) by (repeat split).
  assert (Hexp : expires = LocalTime E (now E) + 7 * msPerDay
                           - LocalTZA E (LocalTime E (now E) + 7 * msPerDay) false)
    by reflexivity.
  clearbody token w' expires.
  split; [rewrite Htok; apply String_prefix_append |].
  split; [exact Hload |].
  split; [exact Hrest |].
  split; [lia |].
  split; [intro H; rewrite Hexp, H; unfold LocalTime; lia |].
  split; [exact Hget |].
  intros Hzone Hfresh. unfold validateApiKey. rewrite Hload, find_append.
  rewrite (proj2 (find_none_iff _ (loadApiKeys w)));
    [| intros y Hy; apply String.eqb_neq; now apply Hfresh].
  cbn [find api_key expiration]. rewrite String.eqb_refl. apply Z.ltb_lt.
  pose proof (Hzone (now E) true) as H1.
  pose proof (Hzone (LocalTime E (now E) + 7 * msPerDay) false) as H2.
  unfold LocalTime, msPerDay in *. simpl. lia.
Qed.

Lemma generateApiKey_spec_witness :
  let E := Sample.env 0 in
  let w' := snd (generateApiKey E Sample.world0) in
  fst (generateApiKey E Sample.world0) = Sample.zero_token
  /\ loadApiKeys w'
     = [Sample.key "nsh-demo" 1000; Sample.key Sample.zero_token 604800000]
  /\ validateApiKey E Sample.zero_token w' = true.
Proof.
  destruct (generateApiKey_spec (Sample.env 0) Sample.world0)
    as (_ & Hload & _ & _ & Hexp & _ & Hvalid).
  split; [reflexivity | split].
  - rewrite Hload, Hexp; reflexivity.
  - apply Hvalid.
    + intros t b. simpl. unfold msPerDay. lia.
    + intros k [<-|[]]. simpl. discriminate.
Defined.

(** C6 fails as stated in two places.  When the store already holds an
    expired record with the token that is drawn, the new token is rejected
    right after it was generated.  On a host whose clocks go forward one
    hour within the week, the record expires one hour less than
    7 * 86 400 000 ms after now. *)
Lemma generateApiKey_counterexample :
  (let E := Sample.env 2000 in
   let w := Sample.world_collision in
   validateApiKey E (fst (generateApiKey E w)) (snd (generateApiKey E w)) = false)
  /\ (let E := Sample.env_dst (2 * msPerDay) in
      exists key,
        In key (loadApiKeys (snd (generateApiKey E Sample.world0)))
        /\ api_key key = fst (generateApiKey E Sample.world0)
        /\ expiration key <> now E + 7 * msPerDay).
Proof.
  split; [reflexivity|].
  exists (Sample.key Sample.zero_token (9 * msPerDay - 3600000)).
  split; [right; left; reflexivity | split; [reflexivity | discriminate]].
Qed.

Lemma filter_idempotent {A} (f : A -> bool) (l : list A) :
  filter f (filter f l) = filter f l.
Proof.
  induction l as [|x l IH]; simpl; [reflexivity|].
  destruct (f x) eqn:Hx; simpl; [rewrite Hx, IH|]; easy.
Qed.

Lemma filter_all {A} (f : A -> bool) (l : list A) :
  (forall x, In x l -> f x = true) -> filter f l = l.
Proof.
  intro H. induction l as [|x l IH]; simpl; [reflexivity|].
  rewrite (H x) by now left. f_equal. apply IH. intros y Hy. apply H. now right.
Qed.

Lemma count_occ_filter {A} (dec : forall x y : A, {x = y} + {x <> y})
      (f : A -> bool) (l : list A) (x : A) :
  f x = true -> count_occ dec (filter f l) x = count_occ dec l x.
Proof.
  intro Hx. induction l as [|y l IH]; simpl; [reflexivity|].
  destruct (f y) eqn:Hy; simpl.
  - destruct (dec y x); now rewrite IH.
  - destruct (dec y x); [congruence | exact IH].
Qed.

(** C7.  The sweep keeps exactly the stored records that are not expired
    (a record is expired once its expiration is not after now): a record
    is stored afterwards iff it was stored and is not expired, each such
    record as many times as before, and a store without expired records
    is left as it is; nothing but the key file changes.  A second sweep at
    the same instant changes nothing, and after a sweep no stored record is
    expired. *)
Theorem sweep_removes_exactly_expired (E : Env) (w : World) :
  let w' := deleteExpiredApiKeys E w in
  (forall key, In key (loadApiKeys w') <->
               In key (loadApiKeys w) /\ ~ expired E key)
  /\ (forall key, ~ expired E key ->
        count_occ ApiKey_eq_dec (loadApiKeys w') key
        = count_occ ApiKey_eq_dec (loadApiKeys w) key)
  /\ ((forall key, In key (loadApiKeys w) -> ~ expired E key) ->
      loadApiKeys w' = loadApiKeys w)
  /\ (responses w' = responses w /\ manager w' = manager w /\ db_log w' = db_log w)
  /\ deleteExpiredApiKeys E w' = w'
  /\ Forall (fun key => ~ expired E key) (loadApiKeys w').
Proof.
  intro w'.
  assert (Hload : loadApiKeys w'
                  = filter (fun key => now E <? expiration key) (loadApiKeys w))
    by reflexivity.
  assert (Hlive : forall key, (now E <? expiration key) = true <-> ~ expired E key).
  { intro key. unfold expired. rewrite Z.ltb_lt. lia. }
  split; [|split; [|split; [|split; [|split]]]].
  - intro key. rewrite Hload, filter_In, Hlive. reflexivity.
  - intros key Hkey. rewrite Hload. apply count_occ_filter. now apply Hlive.
  - intro Hall. rewrite Hload. apply filter_all.
    intros key Hin. apply Hlive. now apply Hall.
  - repeat split.
  - unfold w', deleteExpiredApiKeys, saveApiKeys, set_apikeys_file, loadApiKeys.
    simpl. now rewrite filter_idempotent.
  - apply Forall_forall. intros key Hin. rewrite Hload in Hin.
    apply filter_In in Hin. now apply Hlive.
Qed.

Lemma sweep_removes_exactly_expired_witness :
  let E := Sample.env 50 in
  loadApiKeys (deleteExpiredApiKeys E Sample.world_mixed)
  = [Sample.key "a" 100; Sample.key "c" 51]
  /\ count_occ ApiKey_eq_dec
       (loadApiKeys (deleteExpiredApiKeys E Sample.world_mixed))
       (Sample.key "a" 100) = 1%nat
  /\ ~ In (Sample.key "b" 50)
          (loadApiKeys (deleteExpiredApiKeys E Sample.world_mixed)).
Proof.
  destruct (sweep_removes_exactly_expired (Sample.env 50) Sample.world_mixed)
    as (Hin & Hcount & _ & _ & _ & _).
  split; [reflexivity | split].
  - rewrite Hcount; [reflexivity |]. unfold expired; simpl; lia.
  - intro H. apply Hin in H. destruct H as [_ H]. apply H.
    unfold expired; simpl; lia.
Defined.

(** C10.  When [apikeys.json] does not exist, loading gives the empty
    array; so no token is valid, every [/nash] request that reaches the
    key check is answered 403 "Invalid API key" and changes nothing, and
    [/api/keys] answers 200 with an empty list. *)
Theorem missing_key_file (E : Env) (w : World) :
  apikeys_file w = None ->
  loadApiKeys w = []
  /\ (forall token, validateApiKey E token w = false)
  /\ (forall prompt apiKey language,
        get_nash E {| q_prompt := Some prompt; q_apiKey := Some apiKey;
                      q_language := language |} w
        = (json 403 (JMessage "Invalid API key"), w))
  /\ get_api_keys w = (json 200 (JKeys []), w).
Proof.
  intro Hfile.
  assert (Hload : loadApiKeys w = []) by (unfold loadApiKeys; now rewrite Hfile).
  assert (Hval : forall token, validateApiKey E token w = false).
  { intro token. unfold validateApiKey. now rewrite Hload. }
  split; [exact Hload | split; [exact Hval | split]].
  - intros prompt apiKey language. unfold get_nash; simpl. now rewrite Hval.
  - unfold get_api_keys. now rewrite Hload.
Qed.

Lemma missing_key_file_witness :
  validateApiKey (Sample.env 0) "nsh-demo" Sample.world_no_file = false
  /\ fst (get_nash (Sample.env 0) (Sample.ask "hello" None) Sample.world_no_file)
     = json 403 (JMessage "Invalid API key")
  /\ fst (get_api_keys Sample.world_no_file) = json 200 (JKeys []).
Proof.
  destruct (missing_key_file (Sample.env 0) Sample.world_no_file eq_refl)
    as (_ & Hval & Hnash & Hkeys).
  split; [apply Hval | split].
  - unfold Sample.ask. now rewrite Hnash.
  - now rewrite Hkeys.
Defined.

(* ================================================================== *)
(** ** The resolution pipeline, [GET /nash] *)
(* ================================================================== *)

Lemma truthy_nonempty (a : string) : a <> "" -> JsString.truthy (Some a) = true.
Proof. destruct a; [congruence | reflexivity]. Qed.

(** A validated request with a valid key runs the [try] block. *)
Lemma get_nash_resolve (E : Env) (w : World) (prompt apiKey : string)
      (language : option string) :
  validateApiKey E apiKey w = true ->
  get_nash E {| q_prompt := Some prompt; q_apiKey := Some apiKey;
                q_language := language |} w
  = try_catch (resolve E match language with Some l => l | None => "en" end prompt)
              (json 500 (JMessage "Error retrieving responses")) w.
Proof. intro Hkey. unfold get_nash; simpl. now rewrite Hkey. Qed.

(** The pipeline once the matcher has replied without a truthy answer. *)
Lemma resolve_no_answer (E : Env) (w : World) (language prompt : string)
      (r : NlpResult) :
  nlp_process E (manager w) language prompt = Ok r ->
  JsString.truthy (nlp_answer r) = false ->
  resolve E language prompt w = time_or_fuzzy E prompt w.
Proof.
  intros Hr Hfalsy. unfold resolve, bind, manager_process. rewrite Hr.
  destruct (nlp_answer r) as [a|]; [|reflexivity]. now rewrite Hfalsy.
Qed.

(** C1, as amended.  For a validated request with a valid key to which the
    matcher replies: (1) a non-empty answer of the matcher is the response,
    whatever the prompt looks like, and nothing else is consulted;
    (2) otherwise, when the prompt matches the time-query pattern, the
    response is the rendered time response for the captured location with
    its white space turned into underscores, and the store is not queried;
    (3) otherwise, when the look-up of the questions works and the fuzzy
    search over them finds something, the response is the "did you mean"
    sentence quoting the best match; (4) otherwise it is the fixed
    don't-know message.  All four are 200 responses. *)
Theorem resolution_priority (E : Env) (w : World) (prompt apiKey : string)
        (language : option string) (r : NlpResult) :
  let lang := match language with Some l => l | None => "en" end in
  let res := get_nash E {| q_prompt := Some prompt; q_apiKey := Some apiKey;
                           q_language := language |} w in
  validateApiKey E apiKey w = true ->
  nlp_process E (manager w) lang prompt = Ok r ->
  (forall a, nlp_answer r = Some a -> a <> "" ->
             res = (json 200 (JResponse a), w))
  /\ (JsString.truthy (nlp_answer r) = false ->
      forall group1, JsString.time_query_match prompt = Some group1 ->
        res = (json 200 (JResponse (generateTimeResponse E
                          (JsString.spaces_to_underscores group1))), w))
  /\ (JsString.truthy (nlp_answer r) = false ->
      JsString.time_query_match prompt = None ->
      throws E (DbAll SelectQuestions) = false ->
      (forall item others,
          fuse_search E (map question (responses w)) prompt = item :: others ->
          fst res = json 200 (JResponse (did_you_mean item)))
      /\ (fuse_search E (map question (responses w)) prompt = [] ->
          fst res = json 200 (JResponse dont_know))).
Proof.
  intros lang res Hkey Hr. unfold res. rewrite (get_nash_resolve E w prompt apiKey language Hkey).
  fold lang. unfold try_catch. split; [|split].
  - intros a Ha Hne. unfold resolve, bind, manager_process. rewrite Hr, Ha.
    now rewrite (truthy_nonempty a Hne).
  - intros Hfalsy group1 Hmatch. rewrite (resolve_no_answer E w lang prompt r Hr Hfalsy).
    unfold time_or_fuzzy. now rewrite Hmatch.
  - intros Hfalsy Hmatch Hdb. rewrite (resolve_no_answer E w lang prompt r Hr Hfalsy).
    unfold time_or_fuzzy. rewrite Hmatch.
    unfold fuzzy_or_default, bind, db_all. rewrite Hdb. split.
    + intros item others Hfuse. now rewrite Hfuse.
    + intro Hfuse. now rewrite Hfuse.
Qed.

Lemma resolution_priority_witness :
  let E := Sample.env 0 in
  let w := Sample.world_taught in
  JsString.time_query_match Sample.london = Some "London please"
  /\ fst (get_nash E (Sample.ask Sample.london None) w) = json 200 (JResponse "A")
  /\ fst (get_nash E (Sample.ask "What is the current time in America/New York?" None) w)
     = json 200 (JResponse
         "The current time in America/New York is January 1st 2026, 12:00:00 am.")
  /\ fst (get_nash E (Sample.ask "current" None) w)
     = json 200 (JResponse (did_you_mean Sample.london))
  /\ fst (get_nash E (Sample.ask "zzz" None) w) = json 200 (JResponse dont_know).
Proof.
  intros E w.
  split; [reflexivity | split; [|split; [|split]]].
  - destruct (resolution_priority E w Sample.london "nsh-demo" None
                {| nlp_answer := Some "A" |} eq_refl eq_refl) as (H & _).
    unfold Sample.ask. rewrite (H "A" eq_refl); [reflexivity | discriminate].
  - destruct (resolution_priority E w
                "What is the current time in America/New York?" "nsh-demo" None
                {| nlp_answer := None |} eq_refl eq_refl) as (_ & H & _).
    unfold Sample.ask. rewrite (H eq_refl "America/New York" eq_refl). reflexivity.
  - destruct (resolution_priority E w "current" "nsh-demo" None
                {| nlp_answer := None |} eq_refl eq_refl) as (_ & _ & H).
    destruct (H eq_refl eq_refl eq_refl) as [H1 _].
    exact (H1 Sample.london [] eq_refl).
  - destruct (resolution_priority E w "zzz" "nsh-demo" None
                {| nlp_answer := None |} eq_refl eq_refl) as (_ & _ & H).
    destruct (H eq_refl eq_refl eq_refl) as [_ H2].
    exact (H2 eq_refl).
Defined.

(** C1 fails as stated when the answer the matcher returns is the empty
    string: after the question "current time in London please" was taught
    with the answer "", the matcher returns that answer for the prompt,
    and the response is the time sentence "Invalid timezone.". *)
Lemma resolution_priority_counterexample :
  let E := Sample.env 0 in
  let w := Sample.world_taught_empty in
  nlp_process E (manager w) "en" Sample.london = Ok {| nlp_answer := Some "" |}
  /\ fst (get_nash E (Sample.ask Sample.london None) w)
     = json 200 (JResponse "Invalid timezone.")
  /\ fst (get_nash E (Sample.ask Sample.london None) w)
     <> json 200 (JResponse "").
Proof.
  split; [reflexivity | split; [reflexivity | discriminate]].
Qed.

(** The [try] block never queries the store for a prompt that matches the
    time-query pattern. *)
Lemma resolve_time_query_no_lookup (E : Env) (w : World) (language prompt group1 : string) :
  JsString.time_query_match prompt = Some group1 ->
  snd (resolve E language prompt w) = w.
Proof.
  intro Hmatch. unfold resolve, bind, manager_process.
  destruct (nlp_process E (manager w) language prompt) as [r|]; [|reflexivity].
  unfold time_or_fuzzy. rewrite Hmatch.
  destruct (nlp_answer r) as [a|]; [|reflexivity].
  destruct (JsString.truthy (Some a)); reflexivity.
Qed.

(** C3.  For a prompt that matches the time-query pattern and whose
    captured location (white space turned into underscores) is not a zone
    of the timezone database: the temporal handler returns "Invalid
    timezone."; when the key is valid and the matcher replies without an
    answer, that message is the 200 response; and whatever the matcher
    does, the request issues no query on the store, so neither the fuzzy
    look-up nor the default is reached, and the world is left as it
    was. *)
Theorem invalid_zone_short_circuits (E : Env) (w : World) (prompt apiKey : string)
        (language : option string) (group1 : string) :
  let zone := JsString.spaces_to_underscores group1 in
  let lang := match language with Some l => l | None => "en" end in
  let res := get_nash E {| q_prompt := Some prompt; q_apiKey := Some apiKey;
                           q_language := language |} w in
  JsString.time_query_match prompt = Some group1 ->
  tz_zone E zone = false ->
  generateTimeResponse E zone = "Invalid timezone."
  /\ (validateApiKey E apiKey w = true ->
      forall r, nlp_process E (manager w) lang prompt = Ok r ->
                JsString.truthy (nlp_answer r) = false ->
                res = (json 200 (JResponse "Invalid timezone."), w))
  /\ snd res = w
  /\ db_log (snd res) = db_log w.
Proof.
  intros zone lang res Hmatch Hzone.
  assert (Hgen : generateTimeResponse E zone = "Invalid timezone.").
  { unfold generateTimeResponse. now rewrite Hzone. }
  assert (Hsame : snd res = w).
  { unfold res, get_nash; simpl.
    destruct (validateApiKey E apiKey w); [|reflexivity]. simpl.
    fold lang. unfold try_catch.
    pose proof (resolve_time_query_no_lookup E w lang prompt group1 Hmatch) as H.
    destruct (resolve E lang prompt w) as [[a|] w']; exact H. }
  split; [exact Hgen | split; [| split; [exact Hsame | now rewrite Hsame]]].
  intros Hkey r Hr Hfalsy.
  unfold res. rewrite (get_nash_resolve E w prompt apiKey language Hkey).
  fold lang. unfold try_catch.
  rewrite (resolve_no_answer E w lang prompt r Hr Hfalsy).
  unfold time_or_fuzzy. rewrite Hmatch. fold zone. now rewrite Hgen.
Qed.

Lemma invalid_zone_short_circuits_witness :
  let E := Sample.env 0 in
  JsString.time_query_match "current time in Nowhereland" = Some "Nowhereland"
  /\ get_nash E (Sample.ask "current time in Nowhereland" None) Sample.world_taught
     = (json 200 (JResponse "Invalid timezone."), Sample.world_taught).
Proof.
  intro E. split; [reflexivity|].
  destruct (invalid_zone_short_circuits E Sample.world_taught
              "current time in Nowhereland" "nsh-demo" None "Nowhereland"
              eq_refl eq_refl) as (_ & H & _).
  exact (H eq_refl {| nlp_answer := None |} eq_refl eq_refl).
Defined.

(** C8, as amended.  A request without a language parameter is resolved as
    one with language "en".  A language that is supplied is handed to the
    matcher as it is, supported or not: the outcome of the request depends
    on the matcher only through its reply for that very language. *)
Theorem language_default_only_when_absent (E : Env) (w : World)
        (prompt apiKey : string) :
  get_nash E {| q_prompt := Some prompt; q_apiKey := Some apiKey;
                q_language := None |} w
  = get_nash E {| q_prompt := Some prompt; q_apiKey := Some apiKey;
                  q_language := Some "en" |} w
  /\ (forall (l : string) (f g : list Call -> string -> string -> Outcome NlpResult),
         f (manager w) l prompt = g (manager w) l prompt ->
         get_nash (with_process f E)
                  {| q_prompt := Some prompt; q_apiKey := Some apiKey;
                     q_language := Some l |} w
         = get_nash (with_process g E)
                    {| q_prompt := Some prompt; q_apiKey := Some apiKey;
                       q_language := Some l |} w).
Proof.
  split; [reflexivity|].
  intros l f g Hfg. unfold get_nash; simpl.
  change (validateApiKey (with_process f E) apiKey w)
    with (validateApiKey (with_process g E) apiKey w).
  destruct (validateApiKey (with_process g E) apiKey w); [|reflexivity].
  simpl. unfold try_catch, resolve, bind, manager_process. simpl. rewrite Hfg.
  reflexivity.
Qed.

Lemma language_default_only_when_absent_witness :
  let E := Sample.env 0 in
  fst (get_nash E (Sample.ask Sample.london None) Sample.world_taught)
  = json 200 (JResponse "A")
  /\ get_nash (with_process (fun _ _ _ => Throw) E)
              (Sample.ask Sample.london (Some "xx")) Sample.world_taught
     = get_nash (with_process
                   (fun _ l _ => if String.eqb l "xx" then Throw
                                 else Ok {| nlp_answer := Some "en" |}) E)
                (Sample.ask Sample.london (Some "xx")) Sample.world_taught.
Proof.
  intro E.
  destruct (language_default_only_when_absent E Sample.world_taught
              Sample.london "nsh-demo") as [Habsent Hsame].
  split.
  - unfold Sample.ask. rewrite Habsent. reflexivity.
  - apply Hsame. reflexivity.
Defined.

(** C8 fails as stated: with a matcher that was told the question in the
    four languages of the program, the same prompt is answered "A" for
    language "en" and by the temporal handler for the unsupported language
    "xx", which reaches the matcher unchanged. *)
Lemma unsupported_language_counterexample :
  let E := Sample.env 0 in
  let w := Sample.world_taught in
  ~ In "xx" languages
  /\ fst (get_nash E (Sample.ask Sample.london (Some "en")) w)
     = json 200 (JResponse "A")
  /\ fst (get_nash E (Sample.ask Sample.london (Some "xx")) w)
     = json 200 (JResponse "Invalid timezone.")
  /\ get_nash E (Sample.ask Sample.london (Some "xx")) w
     <> get_nash E (Sample.ask Sample.london (Some "en")) w.
Proof.
  split; [|split; [reflexivity | split; [reflexivity | discriminate]]].
  simpl. intros [H|[H|[H|[H|[]]]]]; discriminate.
Qed.

(* ================================================================== *)
(** ** Registration across the four languages *)
(* ================================================================== *)

Lemma new_calls_app (w w' : World) (calls : list Call) :
  manager w' = manager w ++ calls -> new_calls w w' = calls.
Proof.
  unfold new_calls. intros ->. induction (manager w) as [|c m IH]; simpl; auto.
Qed.

Lemma registration_of_app (lang : string) (xs ys : list Call) :
  registration_of lang (xs ++ ys) = registration_of lang xs ++ registration_of lang ys.
Proof.
  induction xs as [|c xs IH]; simpl; [reflexivity|].
  destruct c as [l u i | l i a | | ]; try exact IH;
    destruct (String.eqb l lang); simpl; now rewrite IH.
Qed.

Lemma registration_of_flat_map {A} (lang : string) (g : A -> list Call) (xs : list A) :
  registration_of lang (flat_map g xs)
  = flat_map (fun x => registration_of lang (g x)) xs.
Proof.
  induction xs as [|x xs IH]; simpl; [reflexivity|].
  now rewrite registration_of_app, IH.
Qed.

Lemma flat_map_pointwise {A B} (f g : A -> list B) (xs : list A) :
  (forall x, f x = g x) -> flat_map f xs = flat_map g xs.
Proof.
  intro H. induction xs as [|x xs IH]; simpl; [reflexivity|]. now rewrite H, IH.
Qed.

(** One pair is registered by the same document and answer in each of the
    four languages. *)
Lemma registration_of_pair_calls (lang qu an : string) :
  In lang languages ->
  registration_of lang (pair_calls qu an) = [RegDocument qu qu; RegAnswer qu an].
Proof.
  intros [<-|[<-|[<-|[<-|[]]]]]; reflexivity.
Qed.

Lemma registration_of_answer_calls (lang qu an : string) :
  In lang languages ->
  registration_of lang (answer_calls qu an) = [RegAnswer qu an].
Proof.
  intros [<-|[<-|[<-|[<-|[]]]]]; reflexivity.
Qed.

Lemma registration_of_rows_calls (lang : string) (rows : list QAPair) :
  In lang languages ->
  registration_of lang (rows_calls rows ++ [Train; Save])
  = flat_map (fun row => [RegDocument (question row) (question row);
                          RegAnswer (question row) (answer row)]) rows.
Proof.
  intro H. unfold rows_calls.
  rewrite registration_of_app, registration_of_flat_map. simpl. rewrite app_nil_r.
  apply flat_map_pointwise. intro row. now apply registration_of_pair_calls.
Qed.

Lemma registration_of_entries_calls (lang : string) (entries : list (string * list string)) :
  In lang languages ->
  registration_of lang (flat_map entry_calls entries ++ [Train; Save])
  = flat_map (fun entry => map (RegAnswer (fst entry)) (JsObject.unique (snd entry)))
             entries.
Proof.
  intro H. rewrite registration_of_app, registration_of_flat_map. simpl.
  rewrite app_nil_r. apply flat_map_pointwise. intro entry. unfold entry_calls.
  rewrite registration_of_flat_map.
  induction (JsObject.unique (snd entry)) as [|an ans IH]; [reflexivity|].
  cbn [flat_map map].
  rewrite (registration_of_answer_calls lang (fst entry) an H), IH. reflexivity.
Qed.

(** A block of calls followed by the training and the save. *)
Lemma calls_then_train_save (E : Env) (m : M unit) (calls : list Call) :
  same m (forEach calls (manager_call E)) ->
  same (m ;; manager_call E Train ;; manager_call E Save)
       (forEach (calls ++ [Train; Save]) (manager_call E)).
Proof.
  intro Hm. eapply same_trans; [| apply same_sym, forEach_app].
  apply bind_same; [exact Hm | intros _]. simpl.
  apply bind_same; [apply same_refl | intros _].
  apply same_sym, bind_ret_unit.
Qed.


(** The calls the manager takes during the start-up load. *)
Lemma loadResponses_new_calls (E : Env) (w : World) :
  new_calls w (snd (loadResponses E w))
  = if throws E (DbAll SelectAll) then []
    else accepted E (rows_calls (responses w) ++ [Train; Save]).
Proof.
  unfold loadResponses, try_catch. unfold bind at 1. unfold db_all.
  destruct (throws E (DbAll SelectAll)).
  - apply new_calls_app. simpl. now rewrite app_nil_r.
  - rewrite (calls_then_train_save E _ (rows_calls (responses w))).
    + rewrite forEach_calls_run.
      destruct (all_accepted E _); now apply new_calls_app.
    + apply forEach_flat_map. intro row. apply register_pair_calls.
Qed.

(** The calls the manager takes during one run of the auto-learning job. *)
Lemma autoLearn_new_calls (E : Env) (w : World) :
  new_calls w (snd (autoLearnFromResponses E w))
  = if throws E (DbAll SelectAll) then []
    else match collect_rows [] (responses w) with
         | Ok responsesMap =>
             accepted E (flat_map entry_calls (JsObject.for_in responsesMap)
                         ++ [Train; Save])
         | Throw => []
         end.
Proof.
  unfold autoLearnFromResponses. unfold bind at 1. unfold db_all.
  destruct (throws E (DbAll SelectAll)).
  - apply new_calls_app. simpl. now rewrite app_nil_r.
  - unfold bind at 1. unfold lift.
    destruct (collect_rows [] (responses w)) as [responsesMap|].
    + rewrite (calls_then_train_save E _
                 (flat_map entry_calls (JsObject.for_in responsesMap))).
      * rewrite forEach_calls_run.
        destruct (all_accepted E _); now apply new_calls_app.
      * apply forEach_flat_map. intro entry. apply reregister_calls.
    + apply new_calls_app. simpl. now rewrite app_nil_r.
Qed.

Lemma Forall_flat_map {A B} (P : B -> Prop) (g : A -> list B) (xs : list A) :
  (forall x, Forall P (g x)) -> Forall P (flat_map g xs).
Proof.
  intro H. induction xs as [|x xs IH]; simpl; [constructor|].
  apply Forall_app. split; [apply H | exact IH].
Qed.

Lemma pair_calls_registrations (qu an : string) :
  Forall (fun c => is_registration c = true) (pair_calls qu an).
Proof. unfold pair_calls. apply Forall_flat_map. intro lang. now repeat constructor. Qed.

Lemma entry_calls_registrations (entry : string * list string) :
  Forall (fun c => is_registration c = true) (entry_calls entry).
Proof. unfold entry_calls. apply Forall_flat_map. intro an. now repeat constructor. Qed.

(** When no registration call throws, a block of registrations followed
    by the training and the save registers the whole block, whether or not
    the training and the save go through. *)
Lemma registration_of_accepted (E : Env) (lang : string) (calls : list Call) :
  (forall c, is_registration c = true -> throws E (Manager c) = false) ->
  Forall (fun c => is_registration c = true) calls ->
  registration_of lang (accepted E (calls ++ [Train; Save]))
  = registration_of lang calls.
Proof.
  intros Hok Hreg. induction Hreg as [|c calls Hc Hreg IH]; simpl.
  - destruct (throws E (Manager Train)); [reflexivity|]. simpl.
    destruct (throws E (Manager Save)); reflexivity.
  - rewrite (Hok c Hc).
    destruct c as [l u i | l i a | | ]; try discriminate; simpl;
      destruct (String.eqb l lang); now rewrite IH.
Qed.



(* ================================================================== *)
(** ** The time-query pattern on sample prompts *)
(* ================================================================== *)

Lemma take_while_all (f : ascii -> bool) (s : string) :
  forall c, In c (list_ascii_of_string (JsString.take_while f s)) -> f c = true.
Proof.
  induction s as [|a s IH]; simpl; [intros c []|].
  destruct (f a) eqn:Ha; simpl; [|intros c []].
  intros c [<-|Hc]; [exact Ha | now apply IH].
Qed.

(** What the pattern captures is never empty and is made of letters,
    digits, underscores, slashes, hyphens and white space only. *)
Lemma time_query_match_capture (prompt group1 : string) :
  JsString.time_query_match prompt = Some group1 ->
  group1 <> ""
  /\ forall c, In c (list_ascii_of_string group1) ->
               JsString.is_location_char c = true.
Proof.
  induction prompt as [|a prompt IH]; simpl.
  - unfold JsString.time_pattern_here. simpl. discriminate.
  - destruct (JsString.time_pattern_here (String a prompt)) as [g|] eqn:Hhere.
    + intro H; inversion H; subst. unfold JsString.time_pattern_here in Hhere.
      destruct (JsString.ci_prefix _ _) as [rest|]; [|discriminate].
      destruct (JsString.take_while JsString.is_location_char rest) eqn:Htw;
        [discriminate|].
      inversion Hhere; subst. split; [discriminate|].
      rewrite <- Htw. apply take_while_all.
    + exact IH.
Qed.

Example time_query_new_york :
  JsString.time_query_match "What is the current time in America/New_York?"
  = Some "America/New_York".
Proof. reflexivity. Qed.

Example time_query_case_and_spaces :
  option_map JsString.spaces_to_underscores
    (JsString.time_query_match "CURRENT Time IN New York please!")
  = Some "New_York_please".
Proof. reflexivity. Qed.

Example time_query_needs_location :
  JsString.time_query_match "current time in ?" = None.
Proof. reflexivity. Qed.

(* ================================================================== *)
(** ** Tokens *)
(* ================================================================== *)

Lemma hex_byte_round_trip (b : byte) :
  hex_value (JsString.hex_digit (Byte.to_N b / 16)) = Some (Byte.to_N b / 16)%N
  /\ hex_value (JsString.hex_digit (Byte.to_N b mod 16)) = Some (Byte.to_N b mod 16)%N
  /\ Byte.of_N (Byte.to_N b / 16 * 16 + Byte.to_N b mod 16) = Some b.
Proof. destruct b; vm_compute; auto. Qed.

Lemma from_hex_to_hex (bs : list byte) : from_hex (JsString.to_hex bs) = Some bs.
Proof.
  induction bs as [|b bs IH]; [reflexivity|].
  destruct (hex_byte_round_trip b) as (Hhi & Hlo & Hb).
  cbn [JsString.to_hex from_hex]. now rewrite Hhi, Hlo, IH, Hb.
Qed.

Lemma to_hex_length (bs : list byte) :
  String.length (JsString.to_hex bs) = (2 * length bs)%nat.
Proof. induction bs as [|b bs IH]; simpl; [reflexivity | rewrite IH; lia]. Qed.

Lemma to_hex_digits (bs : list byte) (c : ascii) :
  In c (list_ascii_of_string (JsString.to_hex bs)) -> is_hex_digit c = true.
Proof.
  induction bs as [|b bs IH]; simpl; [intros []|].
  destruct (hex_byte_round_trip b) as (Hhi & Hlo & _).
  intros [<-|[<-|H]]; [| | exact (IH H)]; unfold is_hex_digit.
  - now rewrite Hhi.
  - now rewrite Hlo.
Qed.

(** X1.  Two calls of [generateApiKey] return the same token exactly when
    they drew the same random bytes, whatever the two stores hold: the
    token determines the entropy, which [from_hex] reads back from it. *)
Theorem token_determines_entropy (E1 E2 : Env) (w1 w2 : World) :
  (fst (generateApiKey E1 w1) = fst (generateApiKey E2 w2)
   <-> randomBytes E1 16 = randomBytes E2 16)
  /\ exists digits,
       fst (generateApiKey E1 w1) = ("nsh-" ++ digits)%string
       /\ from_hex digits = Some (randomBytes E1 16).
Proof.
  split.
  - unfold generateApiKey; simpl. split.
    + intro H. inversion H as [Hhex].
      apply (f_equal from_hex) in Hhex. rewrite !from_hex_to_hex in Hhex.
      now inversion Hhex.
    + now intros ->.
  - exists (JsString.to_hex (randomBytes E1 16)). split; [reflexivity|].
    apply from_hex_to_hex.
Qed.

(** X2.  The token is "nsh-" followed by two lower-case hexadecimal digits
    per random byte; with the sixteen bytes [crypto.randomBytes(16)] gives,
    it is 36 characters long. *)
Theorem token_format (E : Env) (w : World) :
  exists digits,
    fst (generateApiKey E w) = ("nsh-" ++ digits)%string
    /\ String.length digits = (2 * length (randomBytes E 16))%nat
    /\ (forall c, In c (list_ascii_of_string digits) -> is_hex_digit c = true)
    /\ (length (randomBytes E 16) = 16%nat ->
        String.length (fst (generateApiKey E w)) = 36%nat).
Proof.
  exists (JsString.to_hex (randomBytes E 16)).
  split; [reflexivity | split; [apply to_hex_length | split; [apply to_hex_digits|]]].
  intro Hlen. unfold generateApiKey; simpl. rewrite to_hex_length, Hlen. reflexivity.
Qed.

Lemma token_format_witness :
  String.length (fst (generateApiKey (Scenario.env_ff 0) Sample.world0)) = 36%nat.
Proof.
  destruct (token_format (Scenario.env_ff 0) Sample.world0) as (d & _ & _ & _ & H).
  apply H. reflexivity.
Defined.

(* ================================================================== *)
(** ** The key store over time *)
(* ================================================================== *)

Lemma find_filter_keep {A} (f g : A -> bool) (l : list A) (x : A) :
  find f l = Some x -> g x = true -> find f (filter g l) = Some x.
Proof.
  induction l as [|y l IH]; simpl; [discriminate|].
  destruct (f y) eqn:Hy.
  - intros H Hg. inversion H; subst. rewrite Hg. simpl. now rewrite Hy.
  - intros H Hg. destruct (g y); simpl; [rewrite Hy|]; now apply IH.
Qed.

Lemma find_filter_none {A} (f g : A -> bool) (l : list A) :
  find f l = None -> find f (filter g l) = None.
Proof.
  rewrite !find_none_iff. intros H y Hy. apply filter_In in Hy. now apply H.
Qed.

Lemma filter_filter_implied {A} (f g : A -> bool) (l : list A) :
  (forall x, g x = true -> f x = true) ->
  filter g (filter f l) = filter g l /\ filter f (filter g l) = filter g l.
Proof.
  intro H. induction l as [|x l [IH1 IH2]]; simpl; [easy|].
  destruct (g x) eqn:Hg.
  - rewrite (H x Hg). simpl. rewrite Hg, (H x Hg), IH1, IH2. easy.
  - destruct (f x); simpl; [rewrite Hg|]; easy.
Qed.

(** X3.  Issuing a key does not disturb the others: a token that was valid
    stays valid, and the validity of every token other than the new one is
    unchanged, at whatever instant it is checked. *)
Theorem generateApiKey_keeps_other_tokens (E E' : Env) (w : World) (token : string) :
  let w' := snd (generateApiKey E w) in
  (validateApiKey E' token w = true -> validateApiKey E' token w' = true)
  /\ (token <> fst (generateApiKey E w) ->
      validateApiKey E' token w' = validateApiKey E' token w).
Proof.
  intro w'.
  assert (Hload : loadApiKeys w'
                  = loadApiKeys w
                    ++ [{| api_key := fst (generateApiKey E w);
                           expiration := Date_addDays E (now E) API_KEY_EXPIRY_DAYS |}])
    by reflexivity.
  unfold validateApiKey. rewrite Hload, find_append.
  destruct (find (fun key => String.eqb (api_key key) token) (loadApiKeys w))
    as [k|]; [easy|].
  split; [discriminate|].
  intro Hne. cbn [find api_key].
  destruct (String.eqb (fst (generateApiKey E w)) token) eqn:Heq; [|reflexivity].
  apply String.eqb_eq in Heq. congruence.
Qed.

Lemma generateApiKey_keeps_other_tokens_witness :
  let w' := snd (generateApiKey (Sample.env 0) Sample.world0) in
  validateApiKey (Sample.env 5) "nsh-demo" w' = true
  /\ validateApiKey (Sample.env 5) "nsh-unknown" w' = false.
Proof.
  destruct (generateApiKey_keeps_other_tokens (Sample.env 0) (Sample.env 5)
              Sample.world0 "nsh-demo") as [Hkeep _].
  destruct (generateApiKey_keeps_other_tokens (Sample.env 0) (Sample.env 5)
              Sample.world0 "nsh-unknown") as [_ Hsame].
  split.
  - apply Hkeep. reflexivity.
  - rewrite Hsame; [reflexivity | discriminate].
Defined.

(** X4.  A sweep never takes a valid token away: a token that is valid at
    some instant is still valid at that instant after a sweep made at the
    same or an earlier instant.  When the stored tokens are pairwise
    distinct, such a sweep leaves the validity of every token as it
    was. *)
Theorem sweep_keeps_valid_tokens (E1 E2 : Env) (w : World) (token : string) :
  now E1 <= now E2 ->
  (validateApiKey E2 token w = true ->
   validateApiKey E2 token (deleteExpiredApiKeys E1 w) = true)
  /\ (NoDup (map api_key (loadApiKeys w)) ->
      validateApiKey E2 token (deleteExpiredApiKeys E1 w)
      = validateApiKey E2 token w).
Proof.
  intro Hle.
  assert (Hload : loadApiKeys (deleteExpiredApiKeys E1 w)
                  = filter (fun key => now E1 <? expiration key) (loadApiKeys w))
    by reflexivity.
  unfold validateApiKey. rewrite Hload.
  destruct (find (fun key => String.eqb (api_key key) token) (loadApiKeys w))
    as [k|] eqn:Hf.
  - destruct (now E1 <? expiration k) eqn:Hk.
    + rewrite (find_filter_keep _ _ _ _ Hf Hk). easy.
    + split.
      * intro H. apply Z.ltb_lt in H. apply Z.ltb_ge in Hk. lia.
      * intro Hnd.
        assert (Hnone : find (fun key => String.eqb (api_key key) token)
                          (filter (fun key => now E1 <? expiration key) (loadApiKeys w))
                        = None).
        { apply find_none_iff. intros y Hy. apply filter_In in Hy.
          destruct Hy as [Hin Hlive].
          destruct (String.eqb (api_key y) token) eqn:Hy; [|reflexivity].
          apply String.eqb_eq in Hy.
          rewrite (find_unique_token token (loadApiKeys w) y Hnd Hin Hy) in Hf.
          inversion Hf; subst. congruence. }
        rewrite Hnone. symmetry. apply Z.ltb_ge. apply Z.ltb_ge in Hk. lia.
  - rewrite (find_filter_none _ _ _ Hf). easy.
Qed.

Lemma sweep_keeps_valid_tokens_witness :
  validateApiKey (Sample.env 60) "a" (deleteExpiredApiKeys (Sample.env 50) Sample.world_mixed)
  = true
  /\ validateApiKey (Sample.env 60) "b" (deleteExpiredApiKeys (Sample.env 50) Sample.world_mixed)
     = false.
Proof.
  assert (Hle : now (Sample.env 50) <= now (Sample.env 60)) by (simpl; lia).
  destruct (sweep_keeps_valid_tokens (Sample.env 50) (Sample.env 60)
              Sample.world_mixed "a" Hle) as [Hkeep _].
  destruct (sweep_keeps_valid_tokens (Sample.env 50) (Sample.env 60)
              Sample.world_mixed "b" Hle) as [_ Hsame].
  split.
  - apply Hkeep. reflexivity.
  - rewrite Hsame; [reflexivity|].
    simpl. repeat constructor; simpl; intuition discriminate.
Defined.

(** X5.  Sweeps compose: a sweep followed by a later one, or preceded by a
    later one, leaves the world the later sweep alone would leave. *)
Theorem sweeps_compose (E1 E2 : Env) (w : World) :
  now E1 <= now E2 ->
  deleteExpiredApiKeys E2 (deleteExpiredApiKeys E1 w) = deleteExpiredApiKeys E2 w
  /\ deleteExpiredApiKeys E1 (deleteExpiredApiKeys E2 w) = deleteExpiredApiKeys E2 w.
Proof.
  intro Hle.
  destruct (filter_filter_implied (fun key => now E1 <? expiration key)
              (fun key => now E2 <? expiration key) (loadApiKeys w)) as [H1 H2].
  { intros k Hk. apply Z.ltb_lt in Hk. apply Z.ltb_lt. lia. }
  unfold deleteExpiredApiKeys, saveApiKeys, set_apikeys_file. simpl.
  unfold loadApiKeys in *. simpl. now rewrite H1, H2.
Qed.

Lemma sweeps_compose_witness :
  deleteExpiredApiKeys (Sample.env 50) (deleteExpiredApiKeys (Sample.env 10) Sample.world_mixed)
  = deleteExpiredApiKeys (Sample.env 50) Sample.world_mixed.
Proof.
  apply (sweeps_compose (Sample.env 10) (Sample.env 50) Sample.world_mixed).
  simpl; lia.
Defined.

(** X6.  The life of an issued key whose token no stored record carried
    before: it is valid at an instant exactly when that instant is before
    its expiration; after a sweep it is valid exactly when both the sweep
    and the check come before its expiration; and a [/nash] request that
    presents it at or after its expiration is answered 403. *)
Theorem issued_key_lifecycle (E E1 E2 : Env) (w : World) (prompt : string)
        (language : option string) :
  let token := fst (generateApiKey E w) in
  let w' := snd (generateApiKey E w) in
  let expires := Date_addDays E (now E) API_KEY_EXPIRY_DAYS in
  (forall k, In k (loadApiKeys w) -> api_key k <> token) ->
  validateApiKey E2 token w' = (now E2 <? expires)
  /\ validateApiKey E2 token (deleteExpiredApiKeys E1 w')
     = ((now E1 <? expires) && (now E2 <? expires))%bool
  /\ (expires <= now E2 ->
      get_nash E2 {| q_prompt := Some prompt; q_apiKey := Some token;
                     q_language := language |} w'
      = (json 403 (JMessage "Invalid API key"), w')).
Proof.
  intros token w' expires Hfresh.
  assert (Hload : loadApiKeys w'
                  = loadApiKeys w ++ [{| api_key := token; expiration := expires |}])
    by reflexivity.
  assert (Hnone : find (fun key => String.eqb (api_key key) token) (loadApiKeys w)
                  = None).
  { apply find_none_iff. intros y Hy. apply String.eqb_neq. now apply Hfresh. }
  assert (Hvalid : validateApiKey E2 token w' = (now E2 <? expires)).
  { unfold validateApiKey. rewrite Hload, find_append, Hnone.
    cbn [find api_key expiration]. now rewrite String.eqb_refl. }
  split; [exact Hvalid | split].
  - unfold validateApiKey.
    change (loadApiKeys (deleteExpiredApiKeys E1 w'))
      with (filter (fun key => now E1 <? expiration key) (loadApiKeys w')).
    rewrite Hload, filter_app, find_append, (find_filter_none _ _ _ Hnone).
    cbn [filter expiration]. destruct (now E1 <? expires); [|reflexivity].
    cbn [find api_key expiration]. now rewrite String.eqb_refl.
  - intro Hexp. unfold get_nash. cbn [q_prompt q_apiKey q_language].
    rewrite Hvalid. apply Z.ltb_ge in Hexp. now rewrite Hexp.
Qed.

Lemma issued_key_lifecycle_witness :
  let E := Sample.env 0 in
  let w' := snd (generateApiKey E Sample.world0) in
  validateApiKey (Sample.env 604799999) Sample.zero_token w' = true
  /\ validateApiKey (Sample.env 604800000) Sample.zero_token w' = false
  /\ fst (get_nash (Sample.env 604800000) 
            {| q_prompt := Some "hi"; q_apiKey := Some Sample.zero_token;
               q_language := None |} w')
     = json 403 (JMessage "Invalid API key").
Proof.
  intros E w'.
  assert (Hfresh : forall k, In k (loadApiKeys Sample.world0) ->
                             api_key k <> fst (generateApiKey E Sample.world0)).
  { intros k [<-|[]]. discriminate. }
  destruct (issued_key_lifecycle E E (Sample.env 604799999) Sample.world0 "hi" None Hfresh)
    as (H1 & _ & _).
  destruct (issued_key_lifecycle E E (Sample.env 604800000) Sample.world0 "hi" None Hfresh)
    as (H2 & _ & H3).
  split; [exact H1 | split; [exact H2 |]].
  assert (Hexp : Date_addDays E (now E) API_KEY_EXPIRY_DAYS
                 <= now (Sample.env 604800000)).
  { vm_compute. discriminate. }
  exact (f_equal fst (H3 Hexp)).
Defined.

(* ================================================================== *)
(** ** What the two gated and ungated routes answer *)
(* ================================================================== *)

(** The world after a [/nash] request: as before, or with the look-up of
    the questions logged. *)
Lemma get_nash_world (E : Env) (q : NashQuery) (w : World) :
  snd (get_nash E q w) = w
  \/ snd (get_nash E q w) = set_db_log (db_log w ++ [SelectQuestions]) w.
Proof.
  unfold get_nash.
  destruct (q_prompt q) as [prompt|]; [|now left].
  destruct (q_apiKey q) as [apiKey|]; [|now left].
  destruct (validateApiKey E apiKey w); [|now left]. simpl.
  unfold try_catch, resolve, bind, manager_process.
  destruct (nlp_process E (manager w) _ prompt) as [r|]; [|now left].
  assert (H : snd (let (o, w') := time_or_fuzzy E prompt w in
                   match o with Ok a => (a, w') | Throw =>
                     (json 500 (JMessage "Error retrieving responses"), w') end) = w
              \/ snd (let (o, w') := time_or_fuzzy E prompt w in
                      match o with Ok a => (a, w') | Throw =>
                        (json 500 (JMessage "Error retrieving responses"), w') end)
                 = set_db_log (db_log w ++ [SelectQuestions]) w).
  { unfold time_or_fuzzy.
    destruct (JsString.time_query_match prompt); [now left|].
    right. unfold fuzzy_or_default, bind, db_all.
    destruct (throws E (DbAll SelectQuestions)); [reflexivity|].
    destruct (fuse_search E _ prompt); reflexivity. }
  destruct (nlp_answer r) as [a|]; [|exact H].
  destruct (JsString.truthy (Some a)); [now left | exact H].
Qed.

(** X7.  A [/nash] request only reads: it never changes the stored pairs,
    what the manager was told, or the key file; at most it issues the one
    look-up of the questions. *)
Theorem get_nash_reads_only (E : Env) (q : NashQuery) (w : World) :
  let w' := snd (get_nash E q w) in
  responses w' = responses w
  /\ manager w' = manager w
  /\ apikeys_file w' = apikeys_file w
  /\ (db_log w' = db_log w \/ db_log w' = db_log w ++ [SelectQuestions]).
Proof.
  intro w'. unfold w'.
  destruct (get_nash_world E q w) as [-> | ->]; simpl; auto.
Qed.


Lemma accepted_when_all (E : Env) (calls : list Call) :
  all_accepted E calls = true -> accepted E calls = calls.
Proof.
  unfold all_accepted. induction calls as [|c cs IH]; simpl; [reflexivity|].
  intro H. apply andb_true_iff in H. destruct H as [Hc Hcs].
  apply negb_true_iff in Hc. rewrite Hc. f_equal. now apply IH.
Qed.



(** X10.  Teaching is not gated by a key and does not touch the keys: the
    answer to a [/teach] request is the same whatever the key file holds,
    missing file included, and the key file is left as it was. *)
Theorem get_teach_ignores_keys (E : Env) (q : TeachQuery) (w : World)
        (file : option (list ApiKey)) :
  get_teach E q (set_apikeys_file file w)
  = (fst (get_teach E q w), set_apikeys_file file (snd (get_teach E q w)))
  /\ apikeys_file (snd (get_teach E q w)) = apikeys_file w.
Proof.
  unfold get_teach.
  destruct (q_question q) as [qu|]; [|split; reflexivity].
  destruct (q_answer q) as [an|]; [|split; reflexivity].
  unfold try_catch. rewrite !teach_run. cbv zeta. cbn [responses set_apikeys_file].
  destruct (throws E (DbAll (SelectPair qu an))); [split; reflexivity|].
  destruct (existsb _ (responses w)); [split; reflexivity|].
  destruct (all_accepted E (later_steps qu an)); split; reflexivity.
Qed.

(* ================================================================== *)
(** ** Runs of the server *)
(* ================================================================== *)

(** The world after the start-up load. *)
Lemma loadResponses_world (E : Env) (w : World) :
  snd (loadResponses E w)
  = let w1 := set_db_log (db_log w ++ [SelectAll]) w in
    if throws E (DbAll SelectAll) then w1
    else set_manager
           (manager w ++ accepted E (rows_calls (responses w) ++ [Train; Save])) w1.
Proof.
  unfold loadResponses, try_catch. unfold bind at 1. unfold db_all. cbv zeta.
  destruct (throws E (DbAll SelectAll)); [reflexivity|].
  rewrite (calls_then_train_save E _ (rows_calls (responses w))).
  - rewrite forEach_calls_run. destruct (all_accepted E _); reflexivity.
  - apply forEach_flat_map. intro row. apply register_pair_calls.
Qed.

(** One run of the auto-learning job. *)
Lemma autoLearn_world (E : Env) (w : World) :
  autoLearnFromResponses E w
  = let w1 := set_db_log (db_log w ++ [SelectAll]) w in
    if throws E (DbAll SelectAll) then (Throw, w1)
    else match collect_rows [] (responses w) with
         | Ok responsesMap =>
             let calls := flat_map entry_calls (JsObject.for_in responsesMap)
                          ++ [Train; Save] in
             (if all_accepted E calls then Ok tt else Throw,
              set_manager (manager w ++ accepted E calls) w1)
         | Throw => (Throw, w1)
         end.
Proof.
  unfold autoLearnFromResponses. unfold bind at 1. unfold db_all. cbv zeta.
  destruct (throws E (DbAll SelectAll)); [reflexivity|].
  unfold bind at 1. unfold lift.
  destruct (collect_rows [] (responses w)) as [responsesMap|]; [|reflexivity].
  rewrite (calls_then_train_save E _
             (flat_map entry_calls (JsObject.for_in responsesMap))).
  - now rewrite forEach_calls_run.
  - apply forEach_flat_map. intro entry. apply reregister_calls.
Qed.





Lemma get_teach_key_file (E : Env) (q : TeachQuery) (w : World) :
  apikeys_file (snd (get_teach E q w)) = apikeys_file w.
Proof.
  unfold get_teach.
  destruct (q_question q) as [qu|]; [|reflexivity].
  destruct (q_answer q) as [an|]; [|reflexivity].
  unfold try_catch. rewrite teach_run. cbv zeta.
  destruct (throws E (DbAll (SelectPair qu an))); [reflexivity|].
  destruct (existsb _ (responses w)); [reflexivity|].
  destruct (all_accepted E (later_steps qu an)); reflexivity.
Qed.

(** What one event does to the stored keys. *)
Lemma handle_keys (E : Env) (ev : Event) (w : World) :
  apikeys_file (handle E ev w) = apikeys_file w
  \/ (ev = ApikeyRequest
      /\ loadApiKeys (handle E ev w)
         = loadApiKeys w
           ++ [{| api_key := fst (generateApiKey E w);
                  expiration := Date_addDays E (now E) API_KEY_EXPIRY_DAYS |}])
  \/ (ev = SweepTick
      /\ loadApiKeys (handle E ev w)
         = filter (fun key => now E <? expiration key) (loadApiKeys w)).
Proof.
  destruct ev as [ | | | q | q | | ]; cbn [handle].
  - left. unfold initializeDatabase. rewrite loadResponses_world. cbv zeta.
    destruct (throws E (DbAll SelectAll)); reflexivity.
  - right. left. split; reflexivity.
  - now left.
  - left. destruct (get_nash_world E q w) as [-> | ->]; reflexivity.
  - left. apply get_teach_key_file.
  - left. rewrite autoLearn_world. cbv zeta.
    destruct (throws E (DbAll SelectAll)); [reflexivity|].
    destruct (collect_rows [] (responses w)); reflexivity.
  - right. right. split; reflexivity.
Qed.

(** X13.  The only tokens the server ever adds to the key file are its
    own: after any run, a stored record was stored at the start or carries
    a token that begins with "nsh-". *)
Theorem stored_keys_provenance (trace : list (Env * Event)) (w : World) (key : ApiKey) :
  In key (loadApiKeys (run trace w)) ->
  In key (loadApiKeys w) \/ String.prefix "nsh-" (api_key key) = true.
Proof.
  revert w. induction trace as [|[E ev] trace IH]; intros w Hin; cbn [run] in Hin;
    [now left|].
  destruct (IH _ Hin) as [Hold | Hnew]; [|now right].
  destruct (handle_keys E ev w) as [Hsame | [[_ Happ] | [_ Hfilter]]].
  - left. unfold loadApiKeys in *. now rewrite Hsame in Hold.
  - rewrite Happ in Hold. apply in_app_or in Hold.
    destruct Hold as [Hold | [<- | []]]; [now left | right].
    cbn [api_key]. unfold generateApiKey. cbn [fst].
    apply (String_prefix_append "nsh-").
  - rewrite Hfilter in Hold. apply filter_In in Hold. now left.
Qed.

Lemma stored_keys_provenance_witness :
  In (Sample.key "nsh-ffffffffffffffffffffffffffffffff" 604800070)
     (loadApiKeys (run Scenario.day Sample.world0))
  /\ (In (Sample.key "nsh-ffffffffffffffffffffffffffffffff" 604800070)
         (loadApiKeys Sample.world0)
      \/ String.prefix "nsh-" "nsh-ffffffffffffffffffffffffffffffff" = true).
Proof.
  assert (Hin : In (Sample.key "nsh-ffffffffffffffffffffffffffffffff" 604800070)
                   (loadApiKeys (run Scenario.day Sample.world0))).
  { right. left. reflexivity. }
  split; [exact Hin|].
  exact (stored_keys_provenance Scenario.day Sample.world0 _ Hin).
Defined.

(** What one event tells the manager: nothing, or a block of registrations
    followed by [Train] and [Save], up to the first call that throws. *)
Lemma handle_manager (E : Env) (ev : Event) (w : World) :
  manager (handle E ev w) = manager w
  \/ exists regs,
       Forall (fun c => is_registration c = true) regs
       /\ manager (handle E ev w) = manager w ++ accepted E (regs ++ [Train; Save]).
Proof.
  destruct ev as [ | | | q | q | | ]; cbn [handle].
  - unfold initializeDatabase. rewrite loadResponses_world. cbv zeta.
    destruct (throws E (DbAll SelectAll)); [now left|].
    right. exists (rows_calls (responses w)). split; [|reflexivity].
    apply Forall_flat_map. intro row. apply pair_calls_registrations.
  - now left.
  - now left.
  - left. destruct (get_nash_world E q w) as [-> | ->]; reflexivity.
  - unfold get_teach.
    destruct (q_question q) as [qu|]; [|now left].
    destruct (q_answer q) as [an|]; [|now left].
    unfold try_catch. rewrite teach_run. cbv zeta.
    destruct (throws E (DbAll (SelectPair qu an))); [now left|].
    destruct (existsb _ (responses w)); [now left|].
    right. exists (pair_calls qu an). split; [apply pair_calls_registrations|].
    destruct (all_accepted E (later_steps qu an)); reflexivity.
  - rewrite autoLearn_world. cbv zeta.
    destruct (throws E (DbAll SelectAll)); [now left|].
    destruct (collect_rows [] (responses w)) as [responsesMap|]; [|now left].
    right. exists (flat_map entry_calls (JsObject.for_in responsesMap)).
    split; [|reflexivity].
    apply Forall_flat_map. intro entry. apply entry_calls_registrations.
  - now left.
Qed.





(* ================================================================== *)
(** ** [responsesMap] *)
(* ================================================================== *)

Lemma get_own_set (o : JsObject.t) (k k' : string) (v : list string) :
  JsObject.get_own (JsObject.set o k v) k'
  = if String.eqb k k' then Some v else JsObject.get_own o k'.
Proof.
  induction o as [|[k0 v0] o IH]; simpl; [reflexivity|].
  destruct (String.eqb k0 k) eqn:H0; simpl.
  - apply String.eqb_eq in H0. subst k0.
    destruct (String.eqb k k'); reflexivity.
  - rewrite IH. destruct (String.eqb k0 k') eqn:H0'; [|reflexivity].
    destruct (String.eqb k k') eqn:Hk; [|reflexivity].
    apply String.eqb_eq in H0', Hk. subst. rewrite String.eqb_refl in H0.
    discriminate.
Qed.

Lemma keys_of_set (o : JsObject.t) (k x : string) (v : list string) :
  In x (map fst (JsObject.set o k v)) <-> x = k \/ In x (map fst o).
Proof.
  induction o as [|[k0 v0] o IH]; simpl; [intuition|].
  destruct (String.eqb k0 k) eqn:H0; simpl.
  - apply String.eqb_eq in H0. subst. intuition.
  - rewrite IH. intuition.
Qed.

Lemma keys_of_set_NoDup (o : JsObject.t) (k : string) (v : list string) :
  NoDup (map fst o) -> NoDup (map fst (JsObject.set o k v)).
Proof.
  induction o as [|[k0 v0] o IH]; simpl; intro Hnd.
  - constructor; [intros [] | constructor].
  - inversion Hnd as [|? ? Hk0 Hnd']; subst.
    destruct (String.eqb k0 k) eqn:H0; simpl.
    + now constructor.
    + constructor; [|now apply IH].
      rewrite keys_of_set. intros [->|H]; [|contradiction].
      rewrite String.eqb_refl in H0. discriminate.
Qed.

Lemma get_own_In (o : JsObject.t) (k : string) (v : list string) :
  JsObject.get_own o k = Some v -> In (k, v) o.
Proof.
  induction o as [|[k0 v0] o IH]; simpl; [discriminate|].
  destruct (String.eqb k0 k) eqn:H0.
  - apply String.eqb_eq in H0. intro H. inversion H; subst. now left.
  - intro H. right. now apply IH.
Qed.

Lemma In_get_own (o : JsObject.t) (k : string) (v : list string) :
  NoDup (map fst o) -> In (k, v) o -> JsObject.get_own o k = Some v.
Proof.
  induction o as [|[k0 v0] o IH]; simpl; intros Hnd Hin; [contradiction|].
  inversion Hnd as [|? ? Hk0 Hnd']; subst.
  destruct Hin as [Heq|Hin].
  - inversion Heq; subst. now rewrite String.eqb_refl.
  - destruct (String.eqb k0 k) eqn:H0; [|now apply IH].
    apply String.eqb_eq in H0. subst. exfalso. apply Hk0.
    change k with (fst (k, v)). now apply in_map.
Qed.

Lemma existsb_eqb_In (x : string) (l : list string) :
  existsb (String.eqb x) l = true <-> In x l.
Proof.
  rewrite existsb_exists. split.
  - intros (y & Hy & Heq). apply String.eqb_eq in Heq. now subst.
  - intro H. exists x. split; [exact H | apply String.eqb_refl].
Qed.

(** One row collected without a throw: the map holds what it held, and
    the row. *)
Lemma collect_ok (o o' : JsObject.t) (row : QAPair) :
  plain_keys o -> collect o row = Ok o' ->
  plain_keys o'
  /\ forall qu an,
       holds o' qu an <-> holds o qu an \/ (qu = question row /\ an = answer row).
Proof.
  intros [Hnd Hplain]. unfold collect.
  destruct (JsObject.get_own o (question row)) as [answers|] eqn:Hget.
  - intro H. inversion H; subst o'. clear H. split.
    + split; [now apply keys_of_set_NoDup|].
      intros k Hk. apply keys_of_set in Hk. destruct Hk as [->|Hk]; [|now apply Hplain].
      apply Hplain. apply get_own_In in Hget.
      change (question row) with (fst (question row, answers)). now apply in_map.
    + intros qu an. unfold holds. rewrite get_own_set.
      destruct (String.eqb (question row) qu) eqn:Hq.
      * apply String.eqb_eq in Hq. subst qu. rewrite Hget. split.
        -- intros (v & Hv & Hin). inversion Hv; subst v.
           apply in_app_or in Hin. destruct Hin as [Hin|[<-|[]]].
           ++ left. now exists answers.
           ++ right. easy.
        -- intros [(v & Hv & Hin) | [_ ->]].
           ++ inversion Hv; subst v. exists (answers ++ [answer row]).
              split; [reflexivity | apply in_or_app; now left].
           ++ exists (answers ++ [answer row]).
              split; [reflexivity | apply in_or_app; right; now left].
      * apply String.eqb_neq in Hq. split; [now left|].
        intros [H | [-> _]]; [exact H | congruence].
  - destruct (JsObject.inherited (question row)) eqn:Hinh; [discriminate|].
    intro H. inversion H; subst o'. clear H. split.
    + split; [now apply keys_of_set_NoDup|].
      intros k Hk. apply keys_of_set in Hk. destruct Hk as [->|Hk]; [exact Hinh|].
      now apply Hplain.
    + intros qu an. unfold holds. rewrite get_own_set.
      destruct (String.eqb (question row) qu) eqn:Hq.
      * apply String.eqb_eq in Hq. subst qu. rewrite Hget. split.
        -- intros (v & Hv & Hin). inversion Hv; subst v.
           destruct Hin as [<-|[]]. right. easy.
        -- intros [(v & Hv & _) | [_ ->]]; [discriminate|].
           exists [answer row]. split; [reflexivity | now left].
      * apply String.eqb_neq in Hq. split; [now left|].
        intros [H | [-> _]]; [exact H | congruence].
Qed.

(** A row makes the collection throw exactly when its question is a name
    inherited from [Object.prototype]. *)
Lemma collect_throws (o : JsObject.t) (row : QAPair) :
  plain_keys o ->
  (collect o row = Throw <-> JsObject.inherited (question row) = true).
Proof.
  intros [Hnd Hplain]. unfold collect.
  destruct (JsObject.get_own o (question row)) as [answers|] eqn:Hget.
  - split; [discriminate|]. intro Hinh. exfalso.
    apply get_own_In in Hget.
    assert (Hk : In (question row) (map fst o)).
    { change (question row) with (fst (question row, answers)). now apply in_map. }
    apply Hplain in Hk. congruence.
  - destruct (JsObject.inherited (question row)); split; easy.
Qed.

Lemma collect_rows_ok (rows : list QAPair) (o o' : JsObject.t) :
  plain_keys o -> collect_rows o rows = Ok o' ->
  plain_keys o'
  /\ forall qu an,
       holds o' qu an
       <-> holds o qu an \/ In {| question := qu; answer := an |} rows.
Proof.
  revert o. induction rows as [|row rows IH]; intros o Hplain; simpl.
  - intro H. inversion H; subst. split; [exact Hplain | intuition].
  - destruct (collect o row) as [o1|] eqn:Hrow; [|discriminate].
    intro Hrows. destruct (collect_ok o o1 row Hplain Hrow) as [Hplain1 H1].
    destruct (IH o1 Hplain1 Hrows) as [Hplain' H']. split; [exact Hplain'|].
    intros qu an. rewrite H', H1. destruct row as [q0 a0]. simpl. split.
    + intros [[H | [-> ->]] | H]; auto.
    + intros [H | [Heq | H]]; auto. inversion Heq; subst. auto.
Qed.

Lemma collect_rows_throws (rows : list QAPair) (o : JsObject.t) :
  plain_keys o ->
  (collect_rows o rows = Throw
   <-> exists row, In row rows /\ JsObject.inherited (question row) = true).
Proof.
  revert o. induction rows as [|row rows IH]; intros o Hplain; simpl.
  - split; [discriminate | intros (r & [] & _)].
  - destruct (collect o row) as [o1|] eqn:Hrow.
    + destruct (collect_ok o o1 row Hplain Hrow) as [Hplain1 _].
      rewrite (IH o1 Hplain1). split.
      * intros (r & Hr & Hinh). exists r. auto.
      * intros (r & [<-|Hr] & Hinh); [|now exists r].
        apply (collect_throws o row Hplain) in Hinh. congruence.
    + split; [|reflexivity]. intros _. exists row. split; [now left|].
      now apply (collect_throws o row Hplain).
Qed.

Lemma plain_keys_empty : plain_keys [].
Proof. split; [constructor | intros k []]. Qed.

Lemma insert_sorted_perm (e : N * (string * list string))
      (l : list (N * (string * list string))) :
  Permutation (JsObject.insert_sorted e l) (e :: l).
Proof.
  induction l as [|e' l IH]; simpl; [reflexivity|].
  destruct (fst e <=? fst e')%N; [reflexivity|].
  rewrite IH. apply perm_swap.
Qed.

(** [for (k in o)] visits every own property, each once. *)
Lemma for_in_perm (o : JsObject.t) : Permutation (JsObject.for_in o) o.
Proof.
  unfold JsObject.for_in. induction o as [|[k v] o IH]; simpl; [reflexivity|].
  destruct (JsObject.array_index k) as [n|].
  - rewrite (Permutation_map snd (insert_sorted_perm (n, (k, v)) _)). simpl.
    now constructor.
  - rewrite <- Permutation_middle. now constructor.
Qed.

Lemma unique_from_spec (seen xs : list string) :
  NoDup (JsObject.unique_from seen xs)
  /\ forall x, In x (JsObject.unique_from seen xs) <-> In x xs /\ ~ In x seen.
Proof.
  revert seen. induction xs as [|y xs IH]; intro seen; simpl.
  - split; [constructor | intuition].
  - destruct (existsb (String.eqb y) seen) eqn:Hy.
    + apply existsb_eqb_In in Hy. destruct (IH seen) as [Hnd Hin].
      split; [exact Hnd|]. intro x. rewrite Hin. split; [intuition|].
      intros [[<-|H] Hs]; [contradiction | auto].
    + assert (Hy' : ~ In y seen).
      { intro H. apply existsb_eqb_In in H. congruence. }
      destruct (IH (y :: seen)) as [Hnd Hin]. split.
      * constructor; [|exact Hnd]. rewrite Hin. simpl. intuition.
      * intro x. simpl. rewrite Hin. simpl. split.
        -- intros [<-|[H1 H2]]; [auto | split; [auto | intuition]].
        -- intros [[<-|H1] H2]; [now left|].
           destruct (string_dec y x) as [->|Hne]; [now left|]. right. intuition.
Qed.

Lemma unique_spec (xs : list string) :
  NoDup (JsObject.unique xs) /\ forall x, In x (JsObject.unique xs) <-> In x xs.
Proof.
  destruct (unique_from_spec [] xs) as [Hnd Hin]. split; [exact Hnd|].
  intro x. unfold JsObject.unique. rewrite Hin. simpl. intuition.
Qed.

(* ================================================================== *)
(** ** The auto-learning job *)
(* ================================================================== *)


(** The entries of a collected map are the stored questions with their
    answers. *)
Lemma collected_entries (rows : list QAPair) (o : JsObject.t) :
  collect_rows [] rows = Ok o ->
  NoDup (map fst (JsObject.for_in o))
  /\ forall qu an,
       (exists entry, In entry (JsObject.for_in o) /\ fst entry = qu
                      /\ In an (JsObject.unique (snd entry)))
       <-> In {| question := qu; answer := an |} rows.
Proof.
  intro Hrows.
  destruct (collect_rows_ok rows [] o plain_keys_empty Hrows) as [[Hnd _] Hholds].
  split.
  - apply (Permutation_NoDup (Permutation_sym (Permutation_map fst (for_in_perm o)))).
    exact Hnd.
  - intros qu an.
    assert (Hh : holds o qu an <-> In {| question := qu; answer := an |} rows).
    { rewrite Hholds. split; [|now right].
      intros [(v & Hv & _) | H]; [discriminate | exact H]. }
    rewrite <- Hh. unfold holds. split.
    + intros ([k v] & Hin & Hk & Han). simpl in Hk, Han. subst k.
      exists v. split.
      * apply In_get_own; [exact Hnd|].
        exact (Permutation_in _ (for_in_perm o) Hin).
      * now apply (proj2 (unique_spec v)).
    + intros (v & Hget & Han). exists (qu, v). split; [|split].
      * apply (Permutation_in _ (Permutation_sym (for_in_perm o))).
        now apply get_own_In.
      * reflexivity.
      * now apply (proj2 (unique_spec v)).
Qed.



(** X16.  When the look-up of the table works: if some stored question is
    a name every object inherits from [Object.prototype] ("constructor",
    "toString", "__proto__", ...), the job throws while it groups the
    rows, before any call on the manager, with no training and no save;
    if no stored question is such a name and the manager accepts its
    calls, the job completes. *)
Theorem autoLearn_fails_on_inherited_name (E : Env) (w : World) :
  throws E (DbAll SelectAll) = false ->
  ((exists row, In row (responses w)
                /\ JsObject.inherited (question row) = true) ->
   autoLearnFromResponses E w = (Throw, set_db_log (db_log w ++ [SelectAll]) w))
  /\ ((forall row, In row (responses w) ->
                   JsObject.inherited (question row) = false) ->
      (forall c, throws E (Manager c) = false) ->
      fst (autoLearnFromResponses E w) = Ok tt
      /\ In Train (new_calls w (snd (autoLearnFromResponses E w)))).
Proof.
  intro Hdb. rewrite autoLearn_new_calls, autoLearn_world. cbv zeta. rewrite Hdb.
  split.
  - intro Hrow. apply (collect_rows_throws (responses w) [] plain_keys_empty) in Hrow.
    now rewrite Hrow.
  - intros Hnone Hok.
    destruct (collect_rows [] (responses w)) as [o|] eqn:Hrows.
    + assert (Hall : all_accepted E (flat_map entry_calls (JsObject.for_in o)
                                     ++ [Train; Save]) = true).
      { unfold all_accepted. apply forallb_forall. intros c _. now rewrite Hok. }
      rewrite Hall, (accepted_when_all E _ Hall). split; [reflexivity|].
      apply in_or_app. right. now left.
    + exfalso.
      apply (collect_rows_throws (responses w) [] plain_keys_empty) in Hrows.
      destruct Hrows as (row & Hin & Hinh). rewrite (Hnone row Hin) in Hinh.
      discriminate.
Qed.

Lemma autoLearn_fails_on_inherited_name_witness :
  autoLearnFromResponses (Sample.env 0) Scenario.world_constructor
  = (Throw, set_db_log [SelectAll] Scenario.world_constructor)
  /\ fst (autoLearnFromResponses (Sample.env 0) Scenario.world_rows) = Ok tt.
Proof.
  destruct (autoLearn_fails_on_inherited_name (Sample.env 0)
              Scenario.world_constructor eq_refl) as [Hfail _].
  destruct (autoLearn_fails_on_inherited_name (Sample.env 0)
              Scenario.world_rows eq_refl) as [_ Hok].
  split.
  - apply Hfail. exists (Sample.pair "constructor" "x"). split; [|reflexivity].
    right. now left.
  - apply Hok; [|reflexivity].
    intros row [<-|[<-|[<-|[<-|[]]]]]; reflexivity.
Defined.

Lemma NoDup_flat_map_by_key {A B K : Type} (key : B -> K) (key_of : A -> K)
      (f : A -> list B) (l : list A) :
  (forall x y, In y (f x) -> key y = key_of x) ->
  (forall x, NoDup (f x)) ->
  NoDup (map key_of l) -> NoDup (flat_map f l).
Proof.
  intros Hkey Hf. induction l as [|x l IH]; simpl; intro Hnd; [constructor|].
  inversion Hnd as [|? ? Hx Hnd']; subst.
  apply NoDup_app; [apply Hf | now apply IH |].
  intros y Hy Hy'. apply in_flat_map in Hy'. destruct Hy' as (x' & Hx' & Hy').
  apply Hx. rewrite <- (Hkey x y Hy), (Hkey x' y Hy'). now apply in_map.
Qed.

(** X17.  When the look-up works, no stored question is a name inherited
    from [Object.prototype] and no registration throws, a run of the
    auto-learning job registers, in each of the four languages, every
    stored answer for its question, each exactly once (however many times
    the pair is stored), and nothing else. *)
Theorem autoLearn_registers_each_answer_once (E : Env) (w : World) (lang : string) :
  let regs := registration_of lang (new_calls w (snd (autoLearnFromResponses E w))) in
  throws E (DbAll SelectAll) = false ->
  (forall row, In row (responses w) -> JsObject.inherited (question row) = false) ->
  (forall c, is_registration c = true -> throws E (Manager c) = false) ->
  In lang languages ->
  (forall r, In r regs <->
             exists qu an, r = RegAnswer qu an
                           /\ In {| question := qu; answer := an |} (responses w))
  /\ NoDup regs.
Proof.
  intros regs Hdb Hnone Hok Hlang. unfold regs.
  rewrite autoLearn_new_calls, Hdb.
  destruct (collect_rows [] (responses w)) as [o|] eqn:Hrows.
  2:{ exfalso.
      apply (collect_rows_throws (responses w) [] plain_keys_empty) in Hrows.
      destruct Hrows as (row & Hin & Hinh). rewrite (Hnone row Hin) in Hinh.
      discriminate. }
  assert (Hreg : Forall (fun c => is_registration c = true)
                        (flat_map entry_calls (JsObject.for_in o))).
  { apply Forall_flat_map. intro entry. apply entry_calls_registrations. }
  rewrite (registration_of_accepted E lang _ Hok Hreg).
  pose proof (registration_of_entries_calls lang (JsObject.for_in o) Hlang) as R.
  rewrite registration_of_app in R. simpl in R. rewrite app_nil_r in R.
  rewrite R. clear R.
  destruct (collected_entries (responses w) o Hrows) as [Hkeys Hentries].
  split.
  - intro r. rewrite in_flat_map. split.
    + intros (entry & Hentry & Hr). apply in_map_iff in Hr.
      destruct Hr as (an & <- & Han). exists (fst entry), an.
      split; [reflexivity|]. apply Hentries. now exists entry.
    + intros (qu & an & -> & Hrow). apply Hentries in Hrow.
      destruct Hrow as (entry & Hentry & <- & Han). exists entry.
      split; [exact Hentry | now apply in_map].
  - apply (NoDup_flat_map_by_key registration_intent fst).
    + intros entry r Hr. apply in_map_iff in Hr. now destruct Hr as (an & <- & _).
    + intro entry. apply Finite.Injective_map_NoDup.
      * intros a b H. now inversion H.
      * apply unique_spec.
    + exact Hkeys.
Qed.

Lemma autoLearn_registers_each_answer_once_witness :
  let regs := registration_of "es"
                (new_calls Scenario.world_rows
                   (snd (autoLearnFromResponses (Sample.env 0) Scenario.world_rows))) in
  regs = [RegAnswer "7" "seven"; RegAnswer "hi" "hello"; RegAnswer "hi" "hey"]
  /\ NoDup regs
  /\ In (RegAnswer "hi" "hello") regs.
Proof.
  intro regs.
  destruct (autoLearn_registers_each_answer_once (Sample.env 0) Scenario.world_rows "es")
    as [Hin Hnd].
  - reflexivity.
  - intros row [<-|[<-|[<-|[<-|[]]]]]; reflexivity.
  - intros c _. reflexivity.
  - simpl; tauto.
  - split; [reflexivity | split; [exact Hnd|]].
    apply Hin. exists "hi", "hello". split; [reflexivity | now left].
Defined.

(* ================================================================== *)
(** ** The start-up load *)
(* ================================================================== *)

(** What the start-up load registers in one language when the look-up
    works and no registration throws. *)
Lemma loadResponses_registrations (E : Env) (w : World) (lang : string) :
  throws E (DbAll SelectAll) = false ->
  (forall c, is_registration c = true -> throws E (Manager c) = false) ->
  In lang languages ->
  registration_of lang (new_calls w (snd (loadResponses E w)))
  = flat_map (fun row => [RegDocument (question row) (question row);
                          RegAnswer (question row) (answer row)]) (responses w).
Proof.
  intros Hdb Hok Hlang. rewrite loadResponses_new_calls, Hdb.
  assert (Hreg : Forall (fun c => is_registration c = true) (rows_calls (responses w))).
  { apply Forall_flat_map. intro row. apply pair_calls_registrations. }
  rewrite (registration_of_accepted E lang _ Hok Hreg).
  pose proof (registration_of_rows_calls lang (responses w) Hlang) as R.
  rewrite registration_of_app in R. simpl in R. now rewrite app_nil_r in R.
Qed.

(** X18.  The start-up load.  When the look-up of the table fails the
    error is swallowed and the manager is told nothing, not even to train.
    When it works and the manager accepts its calls, the manager is told,
    row by row in table order, the document and the answer of every row
    in the four languages, then [Train] and [Save] (only these two for an
    empty table); a pair stored twice is registered twice.  The table is
    never changed. *)
Theorem loadResponses_registers_table (E : Env) (w : World) :
  let w' := snd (loadResponses E w) in
  responses w' = responses w
  /\ (throws E (DbAll SelectAll) = true -> manager w' = manager w)
  /\ (throws E (DbAll SelectAll) = false ->
      (forall c, throws E (Manager c) = false) ->
      new_calls w w' = rows_calls (responses w) ++ [Train; Save]
      /\ forall lang, In lang languages ->
           registration_of lang (new_calls w w')
           = flat_map (fun row => [RegDocument (question row) (question row);
                                   RegAnswer (question row) (answer row)])
                      (responses w)).
Proof.
  intro w'. unfold w'. split; [|split].
  - rewrite loadResponses_world. cbv zeta.
    destruct (throws E (DbAll SelectAll)); reflexivity.
  - intro Hdb. rewrite loadResponses_world. cbv zeta. now rewrite Hdb.
  - intros Hdb Hok. split.
    + rewrite loadResponses_new_calls, Hdb. apply accepted_when_all.
      unfold all_accepted. apply forallb_forall. intros c _. now rewrite Hok.
    + intros lang Hlang. apply loadResponses_registrations; auto.
Qed.

Lemma loadResponses_registers_table_witness :
  new_calls Sample.world0 (snd (loadResponses (Sample.env 0) Sample.world0))
  = [Train; Save]
  /\ registration_of "tl"
       (new_calls Scenario.world_rows
          (snd (loadResponses (Sample.env 0) Scenario.world_rows)))
     = [RegDocument "hi" "hi"; RegAnswer "hi" "hello";
        RegDocument "7" "7"; RegAnswer "7" "seven";
        RegDocument "hi" "hi"; RegAnswer "hi" "hey";
        RegDocument "hi" "hi"; RegAnswer "hi" "hello"]
  /\ manager (snd (loadResponses (Scenario.env_db_down 0) Scenario.world_rows)) = [].
Proof.
  destruct (loadResponses_registers_table (Sample.env 0) Sample.world0)
    as (_ & _ & H0).
  destruct (loadResponses_registers_table (Sample.env 0) Scenario.world_rows)
    as (_ & _ & H1).
  destruct (loadResponses_registers_table (Scenario.env_db_down 0) Scenario.world_rows)
    as (_ & H2 & _).
  split; [|split].
  - apply H0; reflexivity.
  - rewrite (proj2 (H1 eq_refl (fun _ => eq_refl)) "tl"); [reflexivity|].
    simpl; tauto.
  - exact (H2 eq_refl).
Defined.

(** X19.  A pair that a failed teach request left in the table (the
    look-up worked, the pair was new, a later step threw) is registered,
    document and answer, in each of the four languages by the next
    start-up load whose look-up works and whose registrations do not
    throw. *)
Theorem restart_registers_failed_teach (E1 E2 : Env) (w : World) (qu an lang : string) :
  let w1 := snd (get_teach E1 {| q_question := Some qu; q_answer := Some an |} w) in
  let regs := registration_of lang (new_calls w1 (snd (loadResponses E2 w1))) in
  throws E1 (DbAll (SelectPair qu an)) = false ->
  ~ In {| question := qu; answer := an |} (responses w) ->
  throws E2 (DbAll SelectAll) = false ->
  (forall c, is_registration c = true -> throws E2 (Manager c) = false) ->
  In lang languages ->
  In (RegDocument qu qu) regs /\ In (RegAnswer qu an) regs.
Proof.
  intros w1 regs Hdb1 Hnew Hdb2 Hok Hlang. unfold regs.
  rewrite (loadResponses_registrations E2 w1 lang Hdb2 Hok Hlang).
  assert (Hin : In {| question := qu; answer := an |} (responses w1)).
  { unfold w1.
    destruct (get_teach_responses E1 {| q_question := Some qu; q_answer := Some an |} w)
      as [Heq | (q' & a' & Hreq & _ & _ & Heq)].
    - exfalso. unfold get_teach in Heq. cbn [q_question q_answer] in Heq.
      unfold try_catch in Heq. rewrite teach_run in Heq. cbv zeta in Heq.
      rewrite Hdb1 in Heq.
      destruct (existsb (QAPair_eqb {| question := qu; answer := an |}) (responses w))
        eqn:Hex.
      + apply Hnew. now apply stored_pair_found.
      + destruct (all_accepted E1 (later_steps qu an)); simpl in Heq;
          apply (f_equal (@length _)) in Heq; rewrite length_app in Heq;
          simpl in Heq; lia.
    - rewrite Heq. inversion Hreq; subst. apply in_or_app. right. now left. }
  split; apply in_flat_map; exists {| question := qu; answer := an |};
    (split; [exact Hin | simpl; tauto]).
Qed.

Lemma restart_registers_failed_teach_witness :
  let w1 := snd (get_teach (Sample.env_save_fails 0) (Sample.tell "q" "a") Sample.world0) in
  fst (get_teach (Sample.env_save_fails 0) (Sample.tell "q" "a") Sample.world0)
  = json 500 (JMessage "Error training the chatbot")
  /\ In (RegDocument "q" "q")
        (registration_of "fr" (new_calls w1 (snd (loadResponses (Sample.env 1) w1)))).
Proof.
  intro w1. split; [reflexivity|].
  refine (proj1 (restart_registers_failed_teach (Sample.env_save_fails 0) (Sample.env 1)
                   Sample.world0 "q" "a" "fr" eq_refl _ eq_refl _ _)).
  - simpl. tauto.
  - intros c _. reflexivity.
  - simpl. tauto.
Defined.

(* ================================================================== *)
(** ** More on the time-query pattern *)
(* ================================================================== *)

Lemma zone_char_of_location_char (c : ascii) :
  JsString.is_location_char c = true ->
  is_zone_char (if JsString.is_space c then "_"%char else c) = true.
Proof.
  unfold JsString.is_location_char, is_zone_char.
  destruct (JsString.is_space c); [reflexivity|].
  now rewrite orb_false_r.
Qed.

Lemma zone_char_not_space (c : ascii) :
  is_zone_char c = true -> JsString.is_space c = false.
Proof.
  destruct c as [[] [] [] [] [] [] [] []]; vm_compute; intro H;
    first [reflexivity | discriminate H].
Qed.

Lemma map_chars_length (f : ascii -> ascii) (s : string) :
  String.length (JsString.map_chars f s) = String.length s.
Proof. induction s as [|c s IH]; simpl; [reflexivity | now rewrite IH]. Qed.

Lemma map_chars_In (f : ascii -> ascii) (s : string) (c : ascii) :
  In c (list_ascii_of_string (JsString.map_chars f s)) ->
  exists c0, In c0 (list_ascii_of_string s) /\ c = f c0.
Proof.
  induction s as [|a s IH]; simpl; [intros []|].
  intros [<-|H]; [exists a; auto|].
  destruct (IH H) as (c0 & H0 & ->). exists c0. auto.
Qed.

(** X20.  The zone name the pipeline hands to moment-timezone for a prompt
    that matches the time-query pattern is never empty, is as long as the
    captured location, and is made of letters, digits, underscores,
    slashes and hyphens only: it holds no white space and nothing else
    of the prompt. *)
Theorem zone_name_is_clean (prompt group1 : string) :
  let zone := JsString.spaces_to_underscores group1 in
  JsString.time_query_match prompt = Some group1 ->
  zone <> ""
  /\ String.length zone = String.length group1
  /\ forall c, In c (list_ascii_of_string zone) ->
               is_zone_char c = true /\ JsString.is_space c = false.
Proof.
  intros zone Hmatch.
  destruct (time_query_match_capture prompt group1 Hmatch) as [Hne Hclass].
  split; [|split].
  - unfold zone, JsString.spaces_to_underscores. destruct group1; [congruence|].
    simpl. discriminate.
  - apply map_chars_length.
  - intros c Hc. apply map_chars_In in Hc. destruct Hc as (c0 & Hc0 & ->).
    assert (Hz := zone_char_of_location_char c0 (Hclass c0 Hc0)).
    split; [exact Hz | now apply zone_char_not_space].
Qed.

Lemma zone_name_is_clean_witness :
  JsString.spaces_to_underscores "New York please" = "New_York_please"
  /\ String.length (JsString.spaces_to_underscores "New York please") = 15%nat.
Proof.
  destruct (zone_name_is_clean "CURRENT Time IN New York please!" "New York please"
              eq_refl) as (_ & Hlen & _).
  split; [reflexivity | exact Hlen].
Defined.

Lemma canonicalize_to_upper (c : ascii) :
  JsString.canonicalize (to_upper c) = JsString.canonicalize c.
Proof. destruct c as [[] [] [] [] [] [] [] []]; reflexivity. Qed.

Lemma location_char_to_upper (c : ascii) :
  JsString.is_location_char (to_upper c) = JsString.is_location_char c.
Proof. destruct c as [[] [] [] [] [] [] [] []]; reflexivity. Qed.

Lemma ci_prefix_to_upper (lit s : string) :
  JsString.ci_prefix lit (JsString.map_chars to_upper s)
  = option_map (JsString.map_chars to_upper) (JsString.ci_prefix lit s).
Proof.
  revert s. induction lit as [|p lit IH]; intro s; simpl; [reflexivity|].
  destruct s as [|c s]; simpl; [reflexivity|].
  unfold JsString.ci_eqb. rewrite canonicalize_to_upper.
  destruct (N.eqb _ _); [apply IH | reflexivity].
Qed.

Lemma take_while_to_upper (s : string) :
  JsString.take_while JsString.is_location_char (JsString.map_chars to_upper s)
  = JsString.map_chars to_upper (JsString.take_while JsString.is_location_char s).
Proof.
  induction s as [|c s IH]; simpl; [reflexivity|].
  rewrite location_char_to_upper.
  destruct (JsString.is_location_char c); simpl; [now rewrite IH | reflexivity].
Qed.

Lemma time_pattern_here_to_upper (s : string) :
  JsString.time_pattern_here (JsString.map_chars to_upper s)
  = option_map (JsString.map_chars to_upper) (JsString.time_pattern_here s).
Proof.
  unfold JsString.time_pattern_here. rewrite ci_prefix_to_upper.
  destruct (JsString.ci_prefix _ s) as [rest|]; simpl; [|reflexivity].
  rewrite take_while_to_upper.
  destruct (JsString.take_while JsString.is_location_char rest); reflexivity.
Qed.

(** X21.  The time-query pattern does not look at letter case: a prompt
    and its upper-cased form match or fail together, at the same place,
    and the location captured from the upper-cased prompt is the
    upper-cased location. *)
Theorem time_query_ignores_case (prompt : string) :
  JsString.time_query_match (JsString.map_chars to_upper prompt)
  = option_map (JsString.map_chars to_upper) (JsString.time_query_match prompt).
Proof.
  induction prompt as [|c prompt IH].
  - reflexivity.
  - cbn [JsString.time_query_match].
    change (String (to_upper c) (JsString.map_chars to_upper prompt))
      with (JsString.map_chars to_upper (String c prompt)).
    cbn [JsString.map_chars JsString.time_query_match].
    change (String (to_upper c) (JsString.map_chars to_upper prompt))
      with (JsString.map_chars to_upper (String c prompt)).
    rewrite time_pattern_here_to_upper.
    destruct (JsString.time_pattern_here (String c prompt)); simpl;
      [reflexivity | exact IH].
Qed.

(** X22.  The manager is only ever told more: after any run of the server
    everything it was told at the start is still there, in order, before
    what the run added. *)
Theorem manager_history_is_append_only (trace : list (Env * Event)) (w : World) :
  exists added, manager (run trace w) = manager w ++ added.
Proof.
  revert w. induction trace as [|[E ev] trace IH]; intro w; cbn [run].
  - exists []. now rewrite app_nil_r.
  - destruct (IH (handle E ev w)) as (added & Hrun).
    destruct (handle_manager E ev w) as [Heq | (regs & _ & Heq)].
    + exists added. now rewrite Hrun, Heq.
    + exists (accepted E (regs ++ [Train; Save]) ++ added).
      now rewrite Hrun, Heq, <- app_assoc.
Qed.
